(** * A verification development for the [rt] ray tracer (package [rt])

    The Go package computes with [float64].  Throughout this development a
    [float64] is idealised as an exact real number ([R] of the Standard
    Library): rounding, overflow to infinity and NaN are not modelled, and
    where the source divides by zero the quotient of the model (that of the
    total division of [R]) carries no meaning.  The comparisons of the source
    ([<], [>]) become the boolean tests [Rltb]; integer types of the source
    are integers of [Z] with the wrap-around of their width written out.  A
    run-time panic of the Go program is the [Panic] outcome of the type
    [result]. *)

From Stdlib Require Import Reals Lra Lia ZArith List String Bool.
Import ListNotations.

Open Scope R_scope.

(** ** Outcomes of Go calls: a value, or a run-time panic

    [OutOfFuel] is the outcome of a loop of the model that was given too
    little fuel; the Go program has no such outcome. *)

Inductive result (A : Type) : Type :=
| Ok (a : A)
| Panic (msg : string)
| OutOfFuel.

Arguments Ok {A} a.
Arguments Panic {A} msg.
Arguments OutOfFuel {A}.

Definition bind {A B : Type} (m : result A) (k : A -> result B) : result B :=
  match m with
  | Ok a => k a
  | Panic msg => Panic msg
  | OutOfFuel => OutOfFuel
  end.

Notation "x <- m ;; k" := (bind m (fun x => k))
  (at level 61, m at next level, right associativity).

Notation "' pat <- m ;; k" :=
  (bind m (fun x => match x with pat => k end))
  (at level 61, pat pattern, m at next level, right associativity).

(** [l[i]] on a slice: a panic when the index is out of range. *)
Definition index {A : Type} (l : list A) (i : nat) : result A :=
  match nth_error l i with
  | Some a => Ok a
  | None => Panic "index out of range"
  end.

(** [a % b] on non-negative [int]s: a panic when [b] is zero. *)
Definition imod (a b : nat) : result nat :=
  match b with
  | O => Panic "integer divide by zero"
  | S _ => Ok (Nat.modulo a b)
  end.

(** ** Numbers *)

(** The comparison [x < y] of two floats, as a boolean. *)
Definition Rltb (x y : R) : bool := if Rlt_dec x y then true else false.

(** Truncation toward zero: the integer part that Go's conversions from
    float to an integer type keep. *)
Definition Rtrunc (x : R) : Z :=
  if Rle_dec 0 x then Int_part x else (- Int_part (- x))%Z.

(** Two's complement wrap-around of a 64-bit signed integer ([int64], and
    [int] on the 64-bit targets). *)
Definition wrap64 (z : Z) : Z :=
  ((z + 2 ^ 63) mod 2 ^ 64 - 2 ^ 63)%Z.

(** [int(x)] for a float [x].  Outside the range of [int] Go leaves the
    result to the implementation; the model wraps there. *)
Definition int_of_float (x : R) : Z := wrap64 (Rtrunc x).

(** [uint8(x)] for a float [x]: the low byte of the truncated value.  Outside
    [0, 256) Go leaves the result to the implementation; the model keeps the
    low byte, as the 64-bit targets do. *)
Definition uint8_of_float (x : R) : Z := (Rtrunc x mod 256)%Z.

(** [var Epsilon = 1e-6] *)
Definition Epsilon : R := 1 / 1000000.

(** ** P3, a 3d point *)

Module P3.

Record t : Type := mk { X : R; Y : R; Z : R }.

Definition Add (p q : t) : t := mk (X p + X q) (Y p + Y q) (Z p + Z q).

Definition Sub (p q : t) : t := mk (X p - X q) (Y p - Y q) (Z p - Z q).

Definition Len (p : t) : R := sqrt (X p * X p + Y p * Y p + Z p * Z p).

Definition Normalise (p : t) : t :=
  let l := Len p in
  mk (X p / l) (Y p / l) (Z p / l).

Definition Scale (p : t) (s : R) : t := mk (X p * s) (Y p * s) (Z p * s).

Definition Dot (p q : t) : R := X p * X q + Y p * Y q + Z p * Z q.

Definition Component (p q : t) : t :=
  let s := Dot p q / Len p in
  Scale (Normalise p) s.

Definition Cross (p q : t) : t :=
  mk (Y p * Z q - Z p * Y q)
     (Z p * X q - X p * Z q)
     (X p * Y q - Y p * X q).

End P3.

Abbreviation P3 := P3.t.

(** [var Origin P3], the zero value. *)
Definition Origin : P3 := P3.mk 0 0 0.

(** ** R3, a ray *)

Module R3.

Record t : Type := mk { At : P3; Dir : P3 }.

End R3.

Abbreviation R3 := R3.t.

(** ** Colours ([image/color])

    A [color.Color] is an interface value.  The program builds [color.NRGBA]
    values itself and receives colours of unknown implementation from the
    texture image; the latter are known only through their [RGBA] method and
    are represented by the four 16-bit values it returns.  [Nil] is the nil
    interface value, the [Colour] of the zero [Hit]. *)

Module color.

Inductive Color : Type :=
| Nil
| NRGBA (R G B A : Z)
| Opaque (r g b a : Z).

(** [func (c NRGBA) RGBA() (r, g, b, a uint32)] of the Go library: every
    channel is widened to 16 bits ([r |= r << 8]), multiplied by alpha and
    divided by [0xff]. *)
Definition NRGBA_RGBA (R G B A : Z) : Z * Z * Z * Z :=
  let widen (c : Z) := Z.lor c (Z.shiftl c 8) in
  let premul (c : Z) := (widen c * A / 255)%Z in
  (premul R, premul G, premul B, widen A).

(** The method call [c.RGBA()]; on the nil interface it panics. *)
Definition RGBA (c : Color) : result (Z * Z * Z * Z) :=
  match c with
  | Nil => Panic "invalid memory address or nil pointer dereference"
  | NRGBA R G B A => Ok (NRGBA_RGBA R G B A)
  | Opaque r g b a => Ok (r, g, b, a)
  end.

End color.

(** ** Hit, a ray hit on an item *)

Module Hit.

Record t : Type := mk { At : P3; Normal : P3; Colour : color.Color }.

(** [Hit{}], the zero value. *)
Definition zero : t := mk Origin Origin color.Nil.

End Hit.

Abbreviation Hit := Hit.t.

(** ** T3, a 3d triangle *)

Module T3.

Record t : Type := mk { A : P3; B : P3; C : P3 }.

Definition normal (t3 : t) : P3 :=
  let e1 := P3.Sub (B t3) (A t3) in
  let e2 := P3.Sub (C t3) (A t3) in
  P3.Cross e1 e2.

(** [func (t3 T3) IntersectUV(r R3) (bool, float64, float64, P3)]: the edges
    are taken relative to [C]. *)
Definition IntersectUV (t3 : t) (r : R3) : bool * R * R * P3 :=
  let e1 := P3.Sub (A t3) (C t3) in
  let e2 := P3.Sub (B t3) (C t3) in
  let P := P3.Cross (R3.Dir r) e2 in
  let det := P3.Dot P e1 in
  if Rltb (Rabs det) Epsilon then (false, 0, 0, Origin) else
  let invDet := 1 / det in
  let T := P3.Sub (R3.At r) (C t3) in
  let u := P3.Dot T P * invDet in
  if Rltb u 0 || Rltb 1 u then (false, 0, 0, Origin) else
  let Q := P3.Cross T e1 in
  let v := P3.Dot (R3.Dir r) Q * invDet in
  if Rltb v 0 || Rltb 1 (u + v) then (false, 0, 0, Origin) else
  let t := P3.Dot e2 Q * invDet in
  if Rltb Epsilon t then
    (true, u, v, P3.Add (P3.Add (C t3) (P3.Scale e1 u)) (P3.Scale e2 v))
  else (false, 0, 0, Origin).

(** The earlier revision of [IntersectUV] (src/rt/main.go, lines 615-655),
    with the edges taken relative to [A]. *)
Definition IntersectUV_A (t3 : t) (r : R3) : bool * R * R * P3 :=
  let e1 := P3.Sub (B t3) (A t3) in
  let e2 := P3.Sub (C t3) (A t3) in
  let P := P3.Cross (R3.Dir r) e2 in
  let det := P3.Dot P e1 in
  if Rltb (Rabs det) Epsilon then (false, 0, 0, Origin) else
  let invDet := 1 / det in
  let T := P3.Sub (R3.At r) (A t3) in
  let u := P3.Dot T P * invDet in
  if Rltb u 0 || Rltb 1 u then (false, 0, 0, Origin) else
  let Q := P3.Cross T e1 in
  let v := P3.Dot (R3.Dir r) Q * invDet in
  if Rltb v 0 || Rltb 1 (u + v) then (false, 0, 0, Origin) else
  let t := P3.Dot e2 Q * invDet in
  if Rltb Epsilon t then
    (true, u, v, P3.Add (P3.Add (A t3) (P3.Scale e1 u)) (P3.Scale e2 v))
  else (false, 0, 0, Origin).

(** [func (t3 T3) Intersect(r R3) (bool, Hit, int64)] *)
Definition Intersect (t3 : t) (r : R3) : bool * Hit * Z :=
  let '(hit, _, _, p) := IntersectUV t3 r in
  if negb hit then (false, Hit.zero, 1%Z)
  else (true, Hit.mk p (normal t3) (color.NRGBA 128 0 0 255), 1%Z).

(** The quantities the intersection test computes on the way, relative to
    [C] as in [IntersectUV]: the determinant, the two barycentric parameters
    and the ray parameter. *)
Definition det (t3 : t) (r : R3) : R :=
  P3.Dot (P3.Cross (R3.Dir r) (P3.Sub (B t3) (C t3))) (P3.Sub (A t3) (C t3)).

Definition u (t3 : t) (r : R3) : R :=
  P3.Dot (P3.Sub (R3.At r) (C t3))
         (P3.Cross (R3.Dir r) (P3.Sub (B t3) (C t3))) * (1 / det t3 r).

Definition v (t3 : t) (r : R3) : R :=
  P3.Dot (R3.Dir r)
         (P3.Cross (P3.Sub (R3.At r) (C t3)) (P3.Sub (A t3) (C t3)))
  * (1 / det t3 r).

Definition tparam (t3 : t) (r : R3) : R :=
  P3.Dot (P3.Sub (B t3) (C t3))
         (P3.Cross (P3.Sub (R3.At r) (C t3)) (P3.Sub (A t3) (C t3)))
  * (1 / det t3 r).

(** The first component of the result of [IntersectUV]. *)
Definition hits (t3 : t) (r : R3) : bool :=
  let '(hit, _, _, _) := IntersectUV t3 r in hit.

(** The position [IntersectUV] returns with a hit:
    [t3.C.Add(e1.Scale(u)).Add(e2.Scale(v))]. *)
Definition hitPoint (t3 : t) (u v : R) : P3 :=
  P3.Add (P3.Add (C t3) (P3.Scale (P3.Sub (A t3) (C t3)) u))
         (P3.Scale (P3.Sub (B t3) (C t3)) v).

(** The rays that pass all four tests of [IntersectUV]. *)
Definition accepts (t3 : t) (r : R3) : Prop :=
  Epsilon <= Rabs (det t3 r)
  /\ 0 <= u t3 r <= 1
  /\ 0 <= v t3 r /\ u t3 r + v t3 r <= 1
  /\ Epsilon < tparam t3 r.

(** The rays that fail one of the four tests. *)
Definition rejects (t3 : t) (r : R3) : Prop :=
  Rabs (det t3 r) < Epsilon
  \/ u t3 r < 0 \/ u t3 r > 1
  \/ v t3 r < 0 \/ u t3 r + v t3 r > 1
  \/ tparam t3 r <= Epsilon.

(** The same quantities relative to [A], as in [IntersectUV_A]. *)
Definition det_A (t3 : t) (r : R3) : R :=
  P3.Dot (P3.Cross (R3.Dir r) (P3.Sub (C t3) (A t3))) (P3.Sub (B t3) (A t3)).

Definition u_A (t3 : t) (r : R3) : R :=
  P3.Dot (P3.Sub (R3.At r) (A t3))
         (P3.Cross (R3.Dir r) (P3.Sub (C t3) (A t3))) * (1 / det_A t3 r).

Definition v_A (t3 : t) (r : R3) : R :=
  P3.Dot (R3.Dir r)
         (P3.Cross (P3.Sub (R3.At r) (A t3)) (P3.Sub (B t3) (A t3)))
  * (1 / det_A t3 r).

Definition tparam_A (t3 : t) (r : R3) : R :=
  P3.Dot (P3.Sub (C t3) (A t3))
         (P3.Cross (P3.Sub (R3.At r) (A t3)) (P3.Sub (B t3) (A t3)))
  * (1 / det_A t3 r).

(** The position [IntersectUV_A] returns with a hit,
    [t3.A.Add(e1.Scale(u)).Add(e2.Scale(v))]: the point
    [A + u(B-A) + v(C-A)]. *)
Definition hitPoint_A (t3 : t) (u v : R) : P3 :=
  P3.Add (P3.Add (A t3) (P3.Scale (P3.Sub (B t3) (A t3)) u))
         (P3.Scale (P3.Sub (C t3) (A t3)) v).

Definition accepts_A (t3 : t) (r : R3) : Prop :=
  Epsilon <= Rabs (det_A t3 r)
  /\ 0 <= u_A t3 r <= 1
  /\ 0 <= v_A t3 r /\ u_A t3 r + v_A t3 r <= 1
  /\ Epsilon < tparam_A t3 r.

End T3.

Abbreviation T3 := T3.t.

(** ** Texture images ([image.Image])

    The package reads a texture through its bounds and its [At] method
    only. *)

Module image.

Record Image : Type := mk {
  Min_X : Z; Min_Y : Z; Max_X : Z; Max_Y : Z;
  At : Z -> Z -> color.Color
}.

(** The bounds are those of a well-formed rectangle ([Min <= Max]) whose
    coordinates fit in 32 bits, so that no [int] computation on them
    overflows. *)
Definition inRange (img : Image) : Prop :=
  (Min_X img <= Max_X img /\ Min_Y img <= Max_Y img
   /\ - 2 ^ 31 <= Min_X img /\ Max_X img <= 2 ^ 31
   /\ - 2 ^ 31 <= Min_Y img /\ Max_Y img <= 2 ^ 31)%Z.

End image.

(** ** Kite3, a kite made of two triangles

    The image of a kite is always present: a kite whose [Image] is the nil
    interface, on which [Intersect] panics at [Bounds], is not a value of
    the record. *)

Module Kite3.

Record t : Type := mk { TA : T3; TB : T3; Image : image.Image }.

(** [w := float64(bounds.Max.X - bounds.Min.X)] and likewise [h]. *)
Definition width (img : image.Image) : R :=
  IZR (wrap64 (image.Max_X img - image.Min_X img)).

Definition height (img : image.Image) : R :=
  IZR (wrap64 (image.Max_Y img - image.Min_Y img)).

(** The pixel that the closure [uvToColor] of [Intersect] reads:
    [x := bounds.Min.X + int(w*u)], [y := bounds.Min.Y + int(h*v)]. *)
Definition uvToPixel (img : image.Image) (u v : R) : Z * Z :=
  (wrap64 (image.Min_X img + int_of_float (width img * u)),
   wrap64 (image.Min_Y img + int_of_float (height img * v))).

Definition uvToColor (img : image.Image) (u v : R) : color.Color :=
  let '(x, y) := uvToPixel img u v in
  image.At img x y.

(** [func (k3 Kite3) Intersect(r R3) (bool, Hit, int64)] *)
Definition Intersect (k3 : t) (r : R3) : bool * Hit * Z :=
  let '(hit, u, v, p) := T3.IntersectUV (TA k3) r in
  if hit then
    (hit, Hit.mk p (T3.normal (TA k3)) (uvToColor (Image k3) u v), 1%Z)
  else
  let '(hit, u, v, p) := T3.IntersectUV (TB k3) r in
  let '(u, v) := (1 - v, 1 - u) in
  if hit then
    (hit, Hit.mk p (T3.normal (TB k3)) (uvToColor (Image k3) u v), 2%Z)
  else (false, Hit.zero, 2%Z).

(** The texture pixel as the specification words it: for a texture of
    pixel width [w] and height [h], the pixel [(round(w*u), round(h*v))],
    where [round] is rounding to the nearest integer. *)
Definition spec_round (x : R) : Z := Int_part (x + 1 / 2).

Definition spec_uvToPixel (img : image.Image) (u v : R) : Z * Z :=
  (spec_round (width img * u), spec_round (height img * v)).

End Kite3.

Abbreviation Kite3 := Kite3.t.

(** [func NewKite3(A, B, C P3, img image.Image) *Kite3] *)
Definition NewKite3 (A B C : P3) (img : image.Image) : Kite3 :=
  let CA := P3.Sub A C in
  let CB := P3.Sub B C in
  let C2 := P3.Add (P3.Add C CA) CB in
  Kite3.mk (T3.mk A B C) (T3.mk A B C2) img.

(** ** Item, the things a scene is made of

    The implementations of the interface [Item] in the package: a triangle,
    a kite, and a [CompositeItem] (also when embedded in a [Scene], a
    [Torus] or a [PPiped]).  The children of a composite are a Go slice:
    [None] is the nil slice, [Some l] a slice with the elements [l]. *)

#[warnings="-register-all"]
Inductive Item : Type :=
| ItemT3 (t3 : T3)
| ItemKite3 (k3 : Kite3)
| ItemComposite (children : option (list Item)).

Module CompositeItem.

Record t : Type := mk { children : option (list Item) }.

(** [func (ci *CompositeItem) AddItem(i Item)]: [append] on the nil slice
    allocates. *)
Definition AddItem (ci : t) (i : Item) : t :=
  match children ci with
  | None => mk (Some [i])
  | Some l => mk (Some (l ++ [i]))
  end.

(** The first loop of [Intersect]: every child is tested in turn; the
    counts are added up in an [int64] and the hits are collected. *)
Definition testChildren (intersect : Item -> R3 -> result (bool * Hit * Z))
    (ray : R3) : list Item -> Z -> list Hit -> result (Z * list Hit) :=
  fix loop (l : list Item) (totalTests : Z) (hits : list Hit) :=
    match l with
    | [] => Ok (totalTests, hits)
    | c :: l' =>
        match intersect c ray with
        | Ok (intersects, h, numTests) =>
            loop l' (wrap64 (totalTests + numTests))
                 (if intersects : bool then hits ++ [h] else hits)
        | Panic msg => Panic msg
        | OutOfFuel => OutOfFuel
        end
    end.

(** The second loop of [Intersect], from [nearestHit := hits[0]]. *)
Definition nearest (hits : list Hit) (first : Hit) : Hit :=
  fold_left
    (fun nearestHit h =>
       if Rltb (P3.Len (Hit.At h)) (P3.Len (Hit.At nearestHit)) then h
       else nearestHit)
    hits first.

(** The body of [Intersect], given the [Intersect] method of the children. *)
Definition IntersectWith (intersect : Item -> R3 -> result (bool * Hit * Z))
    (children : option (list Item)) (ray : R3) : result (bool * Hit * Z) :=
  match children with
  | None => Panic "Null children"
  | Some l =>
      match testChildren intersect ray l 0%Z [] with
      | Ok (totalTests, hits) =>
          match hits with
          | [] => Ok (false, Hit.zero, totalTests)
          | h0 :: _ => Ok (true, nearest hits h0, totalTests)
          end
      | Panic msg => Panic msg
      | OutOfFuel => OutOfFuel
      end
  end.

End CompositeItem.

Abbreviation CompositeItem := CompositeItem.t.

(** The method [Intersect] of an [Item], by dynamic dispatch. *)
Fixpoint Item_Intersect (it : Item) (ray : R3) {struct it}
  : result (bool * Hit * Z) :=
  match it with
  | ItemT3 t3 => Ok (T3.Intersect t3 ray)
  | ItemKite3 k3 => Ok (Kite3.Intersect k3 ray)
  | ItemComposite children =>
      CompositeItem.IntersectWith Item_Intersect children ray
  end.

(** [func (ci *CompositeItem) Intersect(ray R3) (bool, Hit, int64)] *)
Definition CompositeItem_Intersect (ci : CompositeItem) (ray : R3)
  : result (bool * Hit * Z) :=
  CompositeItem.IntersectWith Item_Intersect (CompositeItem.children ci) ray.

(** What the children of a composite returned, for stating what the
    composite returns: the sum of the counts, the hits in the order of the
    children, and the distance of a hit from the world origin. *)
Definition sumCounts (results : list (bool * Hit * Z)) : Z :=
  fold_right (fun '(_, _, numTests) acc => (numTests + acc)%Z) 0%Z results.

Definition hitsOf (results : list (bool * Hit * Z)) : list Hit :=
  flat_map (fun '(intersects, h, _) => if intersects : bool then [h] else [])
           results.

Definition distOrigin (h : Hit) : R := P3.Len (P3.Sub (Hit.At h) Origin).

(** The children [l] all return on [ray], with the given results. *)
Definition childResults (intersect : Item -> R3 -> result (bool * Hit * Z))
    (ray : R3) (l : list Item) (results : list (bool * Hit * Z)) : Prop :=
  Forall2 (fun c res => intersect c ray = Ok res) l results.

(** The leaves of a scene: triangles, and kites whose texture has a colour
    (not the nil interface) at every pixel.  [leafIntersect] is the
    [Intersect] method of a leaf. *)
Definition neverNil (img : image.Image) : Prop :=
  forall x y : Z, image.At img x y <> color.Nil.

Definition leaf (it : Item) : Prop :=
  match it with
  | ItemT3 _ => True
  | ItemKite3 k3 => neverNil (Kite3.Image k3)
  | ItemComposite _ => False
  end.

Definition leafIntersect (ray : R3) (it : Item) : bool * Hit * Z :=
  match it with
  | ItemT3 t3 => T3.Intersect t3 ray
  | ItemKite3 k3 => Kite3.Intersect k3 ray
  | ItemComposite _ => (false, Hit.zero, 0%Z)
  end.

(** ** Light and Scene *)

Module Light.

Record t : Type := mk { At : P3; Colour : color.Color }.

End Light.

Abbreviation Light := Light.t.

Module Scene.

(** [Scene] embeds a [CompositeItem]. *)
Record t : Type := mk {
  composite : CompositeItem;
  viewerDist : R;
  screenDist : R;
  lights : list Light
}.

(** [func New(viewerDist float64, screenDist float64) *Scene]: the children
    and the lights are left nil. *)
Definition New (viewerDist screenDist : R) : t :=
  mk (CompositeItem.mk None) viewerDist screenDist [].

(** [func (s *Scene) AddItem(i Item)] *)
Definition AddItem (s : t) (i : Item) : t :=
  mk (CompositeItem.AddItem (composite s) i)
     (viewerDist s) (screenDist s) (lights s).

(** [func (s *Scene) AddLight(l Light)] *)
Definition AddLight (s : t) (l : Light) : t :=
  mk (composite s) (viewerDist s) (screenDist s) (lights s ++ [l]).

(** The loop of [illumination]: the term of every light is added to
    [incidence], which starts at [0.0].  For a light at the hit point, or a
    normal that is the zero vector, the source divides zero by zero and its
    sum is NaN from there on; the sum of the model means something only when
    the normal is not the zero vector and no light is at the hit point. *)
Definition sumIncidence (lights : list Light) (hit : Hit) : R :=
  fold_left
    (fun incidence light =>
       let vlight := P3.Sub (Hit.At hit) (Light.At light) in
       incidence
       + Rabs (P3.Dot vlight (Hit.Normal hit) / P3.Len vlight
               / P3.Len (Hit.Normal hit)))
    lights 0.

(** The closure [toUint] of [illumination]. *)
Definition toUint (incidence : R) (v : Z) : Z :=
  uint8_of_float (IZR v * incidence / 65535 * 256).

(** [func (s *Scene) illumination(hit Hit) color.Color] *)
Definition illumination (s : t) (hit : Hit) : result color.Color :=
  '(r, g, b, _) <- color.RGBA (Hit.Colour hit) ;;
  let incidence := sumIncidence (lights s) hit in
  let incidence := incidence / INR (List.length (lights s)) in
  Ok (color.NRGBA (toUint incidence r) (toUint incidence g)
                  (toUint incidence b) 255).

(** [func (s *Scene) ambient(r R3) color.Color] *)
Definition ambient (s : t) (r : R3) : color.Color := color.NRGBA 0 0 0 255.

(** The ray that [Render] builds. *)
Definition primaryRay (s : t) (x y : R) : R3 :=
  R3.mk (P3.mk 0 0 (viewerDist s))
        (P3.mk (x / screenDist s) (y / screenDist s) 1).

(** [func (s *Scene) Render(x, y float64) (color.Color, int64)] *)
Definition Render (s : t) (x y : R) : result (color.Color * Z) :=
  let ray := primaryRay s x y in
  '(intersects, h, numTests) <- CompositeItem_Intersect (composite s) ray ;;
  if negb intersects then Ok (ambient s ray, numTests)
  else
    c <- illumination s h ;;
    Ok (c, numTests).

(** The incidence as the specification words it: for every light the term
    [|dot(normal, lightVec)| / (|normal| * |lightVec|)], with [lightVec] the
    vector from the hit point to the light, averaged over the lights by a
    division by their number. *)
Definition spec_incidence (normal lightVec : P3) : R :=
  Rabs (P3.Dot normal lightVec) / (P3.Len normal * P3.Len lightVec).

Definition spec_averageIncidence (lights : list Light) (hit : Hit) : R :=
  fold_right Rplus 0
    (map (fun light =>
            spec_incidence (Hit.Normal hit)
                           (P3.Sub (Light.At light) (Hit.At hit)))
         lights)
  / INR (List.length lights).

(** The hit seen from the other side of the surface. *)
Definition backFacing (hit : Hit) : Hit :=
  Hit.mk (Hit.At hit) (P3.Scale (Hit.Normal hit) (-1)) (Hit.Colour hit).

End Scene.

Abbreviation Scene := Scene.t.

(** ** Circle, points on a circumference *)

Module Circle.

Record t : Type := mk { centre : P3; axis : P3; radius : R }.

(** The starting vector [v] that [Points] settles on. *)
Definition helper (c : t) : P3 :=
  let v := P3.mk 1 0 0 in
  if Rltb (P3.Dot v (axis c)) Epsilon then P3.mk 0 1 0 else v.

(** [rx := c.axis.Cross(v).Normalise().Scale(c.radius)] *)
Definition rx (c : t) : P3 :=
  P3.Scale (P3.Normalise (P3.Cross (axis c) (helper c))) (radius c).

(** [ry := c.axis.Cross(rx).Normalise().Scale(c.radius)] *)
Definition ry (c : t) : P3 :=
  P3.Scale (P3.Normalise (P3.Cross (axis c) (rx c))) (radius c).

(** The loop [for theta := 0.0; theta < pi2; theta += pi2 / float64(steps)]
    of [Points], from the angle [theta] on.  The loop is bounded by the
    comparison of floats only, so the model runs it on fuel.  Over the reals
    the test fails exactly when [steps] points have been appended.  The
    [theta] of the source carries the rounding errors of its additions: its
    loop ends after [steps] points for the 32 and the 8 steps that the
    package asks for, and appends one more point for some other numbers of
    steps (6 and 11, for instance). *)
Fixpoint pointsFrom (fuel : nat) (c : t) (step theta : R) (points : list P3)
  : result (list P3) :=
  if Rltb theta (PI * 2) then
    match fuel with
    | O => OutOfFuel
    | S fuel' =>
        let r := P3.Add (P3.Scale (rx c) (cos theta))
                        (P3.Scale (ry c) (sin theta)) in
        pointsFrom fuel' c step (theta + step)
                   (points ++ [P3.Add (centre c) r])
    end
  else Ok points.

(** The point that one iteration of the loop appends, at the angle
    [theta]. *)
Definition pointAt (c : t) (theta : R) : P3 :=
  P3.Add (centre c)
         (P3.Add (P3.Scale (rx c) (cos theta)) (P3.Scale (ry c) (sin theta))).

(** [func (c *Circle) Points(steps int) []P3], for [steps > 0].  (For
    [steps = 0] the step of the source is the float [+Inf] and the loop ends
    after one point; the reals have no such step.) *)
Definition Points (fuel : nat) (c : t) (steps : Z) : result (list P3) :=
  let pi2 := PI * 2 in
  pointsFrom fuel c (pi2 / IZR steps) 0 [].

End Circle.

Abbreviation Circle := Circle.t.

(** ** Grids of points to kites *)

(** The inner loop of [gridToKites], over the columns [j] of one row. *)
Fixpoint kitesOfRow (row next : list P3) (numCols : nat) (img : image.Image)
    (jxs : list nat) (items : option (list Item))
  : result (option (list Item)) :=
  match jxs with
  | [] => Ok items
  | j :: jxs' =>
      a <- index row j ;;
      jn <- imod (j + 1) numCols ;;
      b <- index next jn ;;
      c <- index row jn ;;
      let k := ItemKite3 (NewKite3 a b c img) in
      kitesOfRow row next numCols img jxs'
                 (Some (match items with None => [] | Some l => l end ++ [k]))
  end.

(** The outer loop of [gridToKites], over the rows [i]. *)
Fixpoint kitesOfRows (grid : list (list P3)) (numRows numCols : nat)
    (img : image.Image) (ixs : list nat) (items : option (list Item))
  : result (option (list Item)) :=
  match ixs with
  | [] => Ok items
  | i :: ixs' =>
      row <- index grid i ;;
      inext <- imod (i + 1) numRows ;;
      next <- index grid inext ;;
      items' <- kitesOfRow row next numCols img (seq 0 (List.length row)) items ;;
      kitesOfRows grid numRows numCols img ixs' items'
  end.

(** [func gridToKites(grid [][]P3, img image.Image) []Item].  The result
    starts as the nil slice ([None]). *)
Definition gridToKites (grid : list (list P3)) (img : image.Image)
  : result (option (list Item)) :=
  let numRows := List.length grid in
  row0 <- index grid 0 ;;
  let numCols := List.length row0 in
  kitesOfRows grid numRows numCols img (seq 0 (List.length grid)) None.

(** The point in row [i] and column [j] of a grid, and the kite that
    [gridToKites] builds for the cell [(i, j)] of a grid whose dimensions are
    [numRows] and [numCols]. *)
Definition gridPoint (grid : list (list P3)) (i j : nat) : P3 :=
  nth j (nth i grid []) Origin.

Definition cellKite (grid : list (list P3)) (numRows numCols : nat)
    (img : image.Image) (i j : nat) : Item :=
  ItemKite3
    (NewKite3 (gridPoint grid i j)
              (gridPoint grid ((i + 1) mod numRows) ((j + 1) mod numCols))
              (gridPoint grid i ((j + 1) mod numCols))
              img).

(** The kite of column [j], for the rows [row] and [next]. *)
Definition rowKite (img : image.Image) (row next : list P3)
    (numCols j : nat) : Item :=
  ItemKite3
    (NewKite3 (nth j row Origin) (nth ((j + 1) mod numCols) next Origin)
              (nth ((j + 1) mod numCols) row Origin) img).

(** The kites of the row [i], in the order of the columns. *)
Definition rowKites (grid : list (list P3)) (numRows numCols : nat)
    (img : image.Image) (i : nat) : list Item :=
  map (cellKite grid numRows numCols img i) (seq 0 numCols).

(** [append(items, ks...)] for a slice [items] that may be nil. *)
Definition appendAll (items : option (list Item)) (ks : list Item)
  : option (list Item) :=
  match ks with
  | [] => items
  | _ :: _ => Some (match items with None => [] | Some l => l end ++ ks)
  end.

(** ** Torus *)

Module Torus.

(** [Torus] embeds a [CompositeItem]. *)
Record t : Type := mk {
  composite : CompositeItem;
  centre : P3;
  axis : P3;
  radius : R;
  thickness : R;
  image : image.Image
}.

(** The loop [for i := 0; i < numMajorSteps; i++] of [buildItems], which
    fills the rows of the grid. *)
Fixpoint gridRows (fuel : nat) (d : t) (pts : list P3) (numMinorSteps : Z)
    (ixs : list nat) : result (list (list P3)) :=
  match ixs with
  | [] => Ok []
  | i :: ixs' =>
      pt <- index pts i ;;
      let rv := P3.Normalise (P3.Sub pt (centre d)) in
      let interiorAxis := P3.Cross rv (axis d) in
      let minorCircle := Circle.mk pt interiorAxis (thickness d / 2) in
      row <- Circle.Points fuel minorCircle numMinorSteps ;;
      rows <- gridRows fuel d pts numMinorSteps ixs' ;;
      Ok (row :: rows)
  end.

(** The grid of points that [buildItems] hands to [gridToKites]. *)
Definition buildGrid (fuel : nat) (d : t) : result (list (list P3)) :=
  let numMajorSteps := 32%Z in
  let numMinorSteps := 8%Z in
  let circle := Circle.mk (centre d) (axis d) (radius d) in
  pts <- Circle.Points fuel circle numMajorSteps ;;
  gridRows fuel d pts numMinorSteps (seq 0 (Z.to_nat numMajorSteps)).

(** [func (d *Torus) buildItems()] *)
Definition buildItems (fuel : nat) (d : t) : result t :=
  grid <- buildGrid fuel d ;;
  children <- gridToKites grid (image d) ;;
  Ok (mk (CompositeItem.mk children)
         (centre d) (axis d) (radius d) (thickness d) (image d)).

End Torus.

Abbreviation Torus := Torus.t.

(** [func NewTorus(centre P3, axis P3, radius float64, thickness float64,
    img image.Image) *Torus] *)
Definition NewTorus (fuel : nat) (centre axis : P3) (radius thickness : R)
    (img : image.Image) : result Torus :=
  let t := Torus.mk (CompositeItem.mk None) centre (P3.Normalise axis)
                    radius thickness img in
  Torus.buildItems fuel t.

(** ** PPiped, a parallelepiped *)

Module PPiped.

(** [PPiped] embeds a [CompositeItem]. *)
Record t : Type := mk {
  composite : CompositeItem;
  Corner : P3;
  E1 : P3;
  E2 : P3;
  E3 : P3;
  Image : image.Image
}.

(** [func (ppp *PPiped) Build()] *)
Definition Build (ppp : t) : t :=
  let blf := Corner ppp in
  let k1 := NewKite3 blf (P3.Add (P3.Add blf (E1 ppp)) (E2 ppp))
                     (P3.Add blf (E1 ppp)) (Image ppp) in
  let k2 := NewKite3 blf (P3.Add (P3.Add blf (E2 ppp)) (E3 ppp))
                     (P3.Add blf (E2 ppp)) (Image ppp) in
  let k3 := NewKite3 blf (P3.Add (P3.Add blf (E3 ppp)) (E1 ppp))
                     (P3.Add blf (E3 ppp)) (Image ppp) in
  let trb := P3.Add (P3.Add (P3.Add (Corner ppp) (E1 ppp)) (E2 ppp))
                    (E3 ppp) in
  let k4 := NewKite3 trb (P3.Sub (P3.Sub trb (E1 ppp)) (E2 ppp))
                     (P3.Sub trb (E1 ppp)) (Image ppp) in
  let k5 := NewKite3 trb (P3.Sub (P3.Sub trb (E2 ppp)) (E3 ppp))
                     (P3.Sub trb (E2 ppp)) (Image ppp) in
  let k6 := NewKite3 trb (P3.Sub (P3.Sub trb (E3 ppp)) (E1 ppp))
                     (P3.Sub trb (E3 ppp)) (Image ppp) in
  mk (CompositeItem.mk
        (Some [ItemKite3 k1; ItemKite3 k2; ItemKite3 k3;
               ItemKite3 k4; ItemKite3 k5; ItemKite3 k6]))
     (Corner ppp) (E1 ppp) (E2 ppp) (E3 ppp) (Image ppp).

(** The vertex [Corner + i E1 + j E2 + k E3] of the solid. *)
Definition vertex (ppp : t) (i j k : R) : P3 :=
  P3.Add (Corner ppp)
         (P3.Add (P3.Scale (E1 ppp) i)
                 (P3.Add (P3.Scale (E2 ppp) j) (P3.Scale (E3 ppp) k))).

End PPiped.

Abbreviation PPiped := PPiped.t.

(** The corners of a kite, around its outline: [A], [C], [B] and the apex
    of the second triangle. *)
Definition corners (k3 : Kite3) : list P3 :=
  [T3.A (Kite3.TA k3); T3.C (Kite3.TA k3); T3.B (Kite3.TA k3);
   T3.C (Kite3.TB k3)].

(** ** Earlier revisions: depth of an item, and the pixel grid

    [ZFront] of the triangle and of the kite (src/rt/main.go, lines 207-217
    and 278-285) and the screen coordinate that [main] computes for the
    pixel column or row [x] of [width] (src/rt/main.go, lines 47-48). *)

Definition T3_ZFront (t3 : T3) : R :=
  let z := P3.Z (T3.A t3) in
  let z := if Rltb (P3.Z (T3.B t3)) z then P3.Z (T3.B t3) else z in
  let z := if Rltb (P3.Z (T3.C t3)) z then P3.Z (T3.C t3) else z in
  z.

Definition Kite3_ZFront (k3 : Kite3) : R :=
  let z := T3_ZFront (Kite3.TA k3) in
  let z := if Rltb (T3_ZFront (Kite3.TB k3)) z
           then T3_ZFront (Kite3.TB k3) else z in
  z.

Definition screenCoord (x width : Z) : R := IZR x / IZR width * 2 - 1.

(** ** Sample data

    A triangle in the plane [z = 1], rays along the z axis from the plane
    [z = 0], a 2 x 2 texture whose pixels all differ, and the kite built on
    the triangle.  All coordinates are dyadic, so the float computation of
    the source on them is exact. *)

Module Sample.

Definition triangle : T3 := T3.mk (P3.mk 1 0 1) (P3.mk 0 1 1) (P3.mk 0 0 1).

Definition upFrom (x y : R) : R3 := R3.mk (P3.mk x y 0) (P3.mk 0 0 1).

Definition rayTA : R3 := upFrom (3 / 8) (1 / 8).

Definition rayTB : R3 := upFrom (3 / 4) (3 / 4).

Definition rayMiss : R3 := upFrom 5 5.

(** The triangle of the end-to-end scenario, in a scene with the viewer at
    distance [-5], the screen at distance [1] and one light at the origin. *)
Definition farTriangle : T3 :=
  T3.mk (P3.mk 0 0 10) (P3.mk 1 0 10) (P3.mk 0 1 10).

Definition scene : Scene :=
  Scene.AddLight
    (Scene.AddItem (Scene.New (-5) 1) (ItemT3 farTriangle))
    (Light.mk Origin (color.NRGBA 255 255 255 255)).

(** A hit on the plane [z = 10], facing the viewer, with the colour that
    [T3.Intersect] gives its hits. *)
Definition hit : Hit :=
  Hit.mk (P3.mk 0 0 10) (P3.mk 0 0 1) (color.NRGBA 128 0 0 255).

(** Two triangles across one ray that starts at [z = -5]: the ray meets the
    triangle at [z = -4] first, and the triangle at [z = -1] nearer to the
    world origin. *)
Definition triangleAt (z : R) : T3 :=
  T3.mk (P3.mk 1 0 z) (P3.mk 0 1 z) (P3.mk 0 0 z).

Definition rayBelow : R3 := R3.mk (P3.mk (1 / 4) (1 / 4) (-5)) (P3.mk 0 0 1).

Definition stacked : CompositeItem :=
  CompositeItem.mk
    (Some [ItemT3 (triangleAt (-4)); ItemT3 (triangleAt (-1))]).

(** Circles around the x axis and around the y axis. *)
Definition circleX : Circle := Circle.mk Origin (P3.mk 1 0 0) 1.

Definition circleY : Circle := Circle.mk Origin (P3.mk 0 1 0) 1.

(** A grid of two rows and two columns. *)
Definition grid : list (list P3) :=
  [[P3.mk 0 0 0; P3.mk 0 1 0]; [P3.mk 1 0 0; P3.mk 1 1 0]].

Definition texture : image.Image :=
  image.mk 0 0 2 2 (fun x y => color.Opaque x y 0 65535).

Definition kite : Kite3 :=
  NewKite3 (P3.mk 1 0 1) (P3.mk 0 1 1) (P3.mk 0 0 1) texture.

(** A hit like [hit], of the colour white: every channel at full scale. *)
Definition whiteHit : Hit :=
  Hit.mk (P3.mk 0 0 10) (P3.mk 0 0 1) (color.NRGBA 255 255 255 255).

(** The kite with a texture that is white everywhere, in a scene with the
    viewer at distance [-1], the screen at distance [1] and one light at
    [(1/4, 1/4, 0)]: the ray to the screen point [(1/8, 1/8)] meets the kite
    at [(1/4, 1/4, 1)], straight in front of the light. *)
Definition whiteTexture : image.Image :=
  image.mk 0 0 2 2 (fun _ _ => color.NRGBA 255 255 255 255).

Definition whiteKite : Kite3 :=
  NewKite3 (P3.mk 1 0 1) (P3.mk 0 1 1) (P3.mk 0 0 1) whiteTexture.

Definition whiteScene : Scene :=
  Scene.AddLight
    (Scene.AddItem (Scene.New (-1) 1) (ItemKite3 whiteKite))
    (Light.mk (P3.mk (1 / 4) (1 / 4) 0) (color.NRGBA 255 255 255 255)).

End Sample.

(** Further sample data: a circle of radius 2 around the z axis. *)
Definition circleZ : Circle := Circle.mk (P3.mk 1 2 3) (P3.mk 0 0 1) 2.

(** * Properties *)

(** ** Comparisons and integer conversions *)

Lemma Rltb_true_iff (x y : R) : Rltb x y = true <-> x < y.
Proof. unfold Rltb. destruct (Rlt_dec x y); split; intros; easy. Qed.

Lemma Rltb_false_iff (x y : R) : Rltb x y = false <-> y <= x.
Proof.
  unfold Rltb. destruct (Rlt_dec x y); split; intros; try easy; lra.
Qed.

(** Splits the goal on every comparison of floats it contains. *)
Ltac case_Rltb :=
  repeat match goal with
  | |- context [Rltb ?x ?y] =>
      let H := fresh "H" in
      destruct (Rltb x y) eqn:H;
      [apply Rltb_true_iff in H | apply Rltb_false_iff in H]
  end.

Lemma Epsilon_pos : 0 < Epsilon.
Proof. unfold Epsilon. lra. Qed.

Lemma wrap64_small (z : Z) :
  (- 2 ^ 63 <= z < 2 ^ 63)%Z -> wrap64 z = z.
Proof.
  intros H. unfold wrap64. rewrite Z.mod_small; lia.
Qed.

Lemma wrap64_add_l (a b : Z) : wrap64 (wrap64 a + b) = wrap64 (a + b).
Proof.
  unfold wrap64. f_equal.
  replace ((a + 2 ^ 63) mod 2 ^ 64 - 2 ^ 63 + b + 2 ^ 63)%Z
    with ((a + 2 ^ 63) mod 2 ^ 64 + b)%Z by ring.
  rewrite Zplus_mod_idemp_l. f_equal. ring.
Qed.

Lemma Int_part_bounds (x : R) (n : Z) :
  0 <= x <= IZR n -> (0 <= Int_part x <= n)%Z.
Proof.
  intros [H0 Hn]. destruct (base_Int_part x) as [Hle Hgt]. split.
  - apply Z.lt_succ_r. apply lt_IZR. rewrite succ_IZR. lra.
  - apply le_IZR. lra.
Qed.

Lemma Rtrunc_nonneg (x : R) : 0 <= x -> Rtrunc x = Int_part x.
Proof.
  intros H. unfold Rtrunc. destruct (Rle_dec 0 x); [reflexivity | contradiction].
Qed.

Lemma Int_part_eq (x : R) (z : Z) : IZR z <= x < IZR z + 1 -> Int_part x = z.
Proof. intros H. symmetry. apply Int_part_spec. lra. Qed.

Lemma P3_eq (p q : P3) :
  P3.X p = P3.X q -> P3.Y p = P3.Y q -> P3.Z p = P3.Z q -> p = q.
Proof. destruct p, q; simpl; intros; subst; reflexivity. Qed.

(** Unfolds the vector operations down to their coordinates. *)
Ltac expand_P3 :=
  unfold T3.u, T3.v, T3.tparam, T3.u_A, T3.v_A, T3.tparam_A,
    T3.hitPoint, T3.hitPoint_A;
  unfold T3.det, T3.det_A, P3.Dot, P3.Cross, P3.Sub, P3.Add, P3.Scale;
  cbn [P3.X P3.Y P3.Z T3.A T3.B T3.C R3.At R3.Dir].

(** ** The triangle test *)

Section Triangle.

Variables (t3 : T3) (r : R3).

Lemma accepts_dec : {T3.accepts t3 r} + {~ T3.accepts t3 r}.
Proof.
  unfold T3.accepts.
  destruct (Rle_dec Epsilon (Rabs (T3.det t3 r)));
  destruct (Rle_dec 0 (T3.u t3 r)); destruct (Rle_dec (T3.u t3 r) 1);
  destruct (Rle_dec 0 (T3.v t3 r));
  destruct (Rle_dec (T3.u t3 r + T3.v t3 r) 1);
  destruct (Rlt_dec Epsilon (T3.tparam t3 r));
  solve [left; tauto | right; tauto].
Qed.

Lemma IntersectUV_accept :
  T3.accepts t3 r ->
  T3.IntersectUV t3 r
  = (true, T3.u t3 r, T3.v t3 r, T3.hitPoint t3 (T3.u t3 r) (T3.v t3 r)).
Proof.
  unfold T3.accepts, T3.IntersectUV, T3.hitPoint.
  fold (T3.det t3 r). fold (T3.u t3 r). fold (T3.v t3 r).
  fold (T3.tparam t3 r).
  intros (Hd & Hu & Hv & Huv & Ht).
  case_Rltb; simpl; try reflexivity; lra.
Qed.

Lemma IntersectUV_reject :
  ~ T3.accepts t3 r -> T3.IntersectUV t3 r = (false, 0, 0, Origin).
Proof.
  unfold T3.accepts, T3.IntersectUV.
  fold (T3.det t3 r). fold (T3.u t3 r). fold (T3.v t3 r).
  fold (T3.tparam t3 r).
  intros Hn.
  case_Rltb; simpl; try reflexivity.
  exfalso; apply Hn; lra.
Qed.

Lemma IntersectUV_hit_inv (u v : R) (p : P3) :
  T3.IntersectUV t3 r = (true, u, v, p) ->
  T3.accepts t3 r /\ u = T3.u t3 r /\ v = T3.v t3 r /\ p = T3.hitPoint t3 u v.
Proof.
  intros H. destruct accepts_dec as [Ha | Hn].
  - rewrite (IntersectUV_accept Ha) in H. inversion H; subst. tauto.
  - rewrite (IntersectUV_reject Hn) in H. discriminate.
Qed.

Lemma IntersectUV_A_accept :
  T3.accepts_A t3 r ->
  T3.IntersectUV_A t3 r
  = (true, T3.u_A t3 r, T3.v_A t3 r,
     T3.hitPoint_A t3 (T3.u_A t3 r) (T3.v_A t3 r)).
Proof.
  unfold T3.accepts_A, T3.IntersectUV_A, T3.hitPoint_A.
  fold (T3.det_A t3 r). fold (T3.u_A t3 r). fold (T3.v_A t3 r).
  fold (T3.tparam_A t3 r).
  intros (Hd & Hu & Hv & Huv & Ht).
  case_Rltb; simpl; try reflexivity; lra.
Qed.

Lemma IntersectUV_A_reject :
  ~ T3.accepts_A t3 r -> T3.IntersectUV_A t3 r = (false, 0, 0, Origin).
Proof.
  unfold T3.accepts_A, T3.IntersectUV_A.
  fold (T3.det_A t3 r). fold (T3.u_A t3 r). fold (T3.v_A t3 r).
  fold (T3.tparam_A t3 r).
  intros Hn.
  case_Rltb; simpl; try reflexivity.
  exfalso; apply Hn; lra.
Qed.

Lemma det_nonzero (d : R) : Epsilon <= Rabs d -> d <> 0.
Proof.
  intros H Hd. subst d. rewrite Rabs_R0 in H. pose proof Epsilon_pos. lra.
Qed.

Lemma det_A_det : T3.det_A t3 r = T3.det t3 r.
Proof. expand_P3. ring. Qed.

Lemma scale_inv (n m d : R) : n = m -> n * (1 / d) = m * (1 / d).
Proof. intros ->. reflexivity. Qed.

Lemma u_A_v : T3.u_A t3 r = T3.v t3 r.
Proof.
  unfold T3.u_A, T3.v. rewrite det_A_det. apply scale_inv. expand_P3. ring.
Qed.

Lemma tparam_A_tparam : T3.tparam_A t3 r = T3.tparam t3 r.
Proof.
  unfold T3.tparam_A, T3.tparam. rewrite det_A_det. apply scale_inv.
  expand_P3. ring.
Qed.

Lemma v_A_uv : T3.det t3 r <> 0 -> T3.v_A t3 r = 1 - T3.u t3 r - T3.v t3 r.
Proof.
  intros Hd. unfold T3.v_A, T3.u, T3.v. rewrite det_A_det.
  set (d := T3.det t3 r) in *.
  match goal with
  | |- ?n * _ = 1 - ?nu * _ - ?nv * _ =>
      assert (Hn : n = d - nu - nv) by (subst d; expand_P3; ring);
      rewrite Hn; field; exact Hd
  end.
Qed.

Lemma accepts_A_iff : T3.accepts_A t3 r <-> T3.accepts t3 r.
Proof.
  unfold T3.accepts_A, T3.accepts. rewrite det_A_det, u_A_v, tparam_A_tparam.
  split; intros (Hd & H); pose proof (det_nonzero _ Hd) as Hnz;
    rewrite (v_A_uv Hnz) in *; repeat split; try lra.
Qed.

Lemma hitPoint_A_hitPoint (u v : R) :
  T3.hitPoint_A t3 v (1 - u - v) = T3.hitPoint t3 u v.
Proof. apply P3_eq; expand_P3; ring. Qed.

End Triangle.

(** ** The reported position lies on the ray *)

Lemma on_ray_coordinate (d c a e1 e2 dir nu nv nt : R) :
  d <> 0 ->
  d * (c - a) + e1 * nu + e2 * nv - dir * nt = 0 ->
  c + e1 * (nu * (1 / d)) + e2 * (nv * (1 / d)) = a + dir * (nt * (1 / d)).
Proof.
  intros Hd H.
  assert (E : c + e1 * (nu * (1 / d)) + e2 * (nv * (1 / d))
              - (a + dir * (nt * (1 / d)))
              = (d * (c - a) + e1 * nu + e2 * nv - dir * nt) / d)
    by (field; exact Hd).
  rewrite H in E. unfold Rdiv in E. rewrite Rmult_0_l in E. lra.
Qed.

(** When the determinant is not zero, the position that [IntersectUV]
    computes from [u] and [v] is the point of the ray at the parameter
    [t]. *)
Lemma hitPoint_on_ray (t3 : T3) (r : R3) :
  T3.det t3 r <> 0 ->
  T3.hitPoint t3 (T3.u t3 r) (T3.v t3 r)
  = P3.Add (R3.At r) (P3.Scale (R3.Dir r) (T3.tparam t3 r)).
Proof.
  intros Hd. unfold T3.hitPoint, T3.u, T3.v, T3.tparam.
  set (d := T3.det t3 r) in *.
  apply P3_eq; unfold P3.Add, P3.Scale; cbn [P3.X P3.Y P3.Z];
    apply on_ray_coordinate; try exact Hd;
    subst d; unfold T3.det, P3.Dot, P3.Cross, P3.Sub;
    cbn [P3.X P3.Y P3.Z]; ring.
Qed.

(** Decides a comparison between closed real expressions under [Rabs]. *)
Ltac solve_Rabs := unfold Rabs; destruct (Rcase_abs _); lra.

(** Evaluates the quantities of the triangle test on closed inputs. *)
Ltac eval_T3 :=
  unfold Sample.rayTA, Sample.rayTB, Sample.rayMiss, Sample.upFrom,
    Sample.triangle, Sample.kite, NewKite3, Epsilon;
  cbn [Kite3.TA Kite3.TB];
  expand_P3.

Lemma triangle_rayTA_accepts : T3.accepts Sample.triangle Sample.rayTA.
Proof.
  unfold T3.accepts. eval_T3. repeat split; try lra. solve_Rabs.
Qed.

Lemma triangle_rayTA_u : T3.u Sample.triangle Sample.rayTA = 3 / 8.
Proof. eval_T3. lra. Qed.

Lemma triangle_rayTA_v : T3.v Sample.triangle Sample.rayTA = 1 / 8.
Proof. eval_T3. lra. Qed.

Lemma triangle_rayTA_hit :
  T3.IntersectUV Sample.triangle Sample.rayTA
  = (true, 3 / 8, 1 / 8, P3.mk (3 / 8) (1 / 8) 1).
Proof.
  rewrite (IntersectUV_accept _ _ triangle_rayTA_accepts).
  rewrite triangle_rayTA_u, triangle_rayTA_v.
  repeat f_equal. apply P3_eq; eval_T3; lra.
Qed.

Lemma rejects_iff (t3 : T3) (r : R3) : T3.rejects t3 r <-> ~ T3.accepts t3 r.
Proof. unfold T3.rejects, T3.accepts. lra. Qed.

Lemma triangle_rayMiss_rejects : T3.rejects Sample.triangle Sample.rayMiss.
Proof. unfold T3.rejects. right; right; left. eval_T3. lra. Qed.

(** C1 (amended): [T3.IntersectUV] reports no hit when [|det| < 1e-6], when
    [u < 0] or [u > 1], when [v < 0] or [u + v > 1], or when [t <= 1e-6];
    otherwise it reports a hit with the parameters [u], [v] at the position
    [C + u(A-C) + v(B-C)], which is the point [A + v(B-A) + (1-u-v)(C-A)];
    and every reported hit has [u >= 0], [v >= 0] and [u + v <= 1]. *)
Theorem IntersectUV_outcome (t3 : T3) (r : R3) :
  (T3.rejects t3 r -> T3.IntersectUV t3 r = (false, 0, 0, Origin))
  /\ (~ T3.rejects t3 r ->
      T3.IntersectUV t3 r
      = (true, T3.u t3 r, T3.v t3 r,
         T3.hitPoint t3 (T3.u t3 r) (T3.v t3 r)))
  /\ (forall (u v : R) (p : P3),
        T3.IntersectUV t3 r = (true, u, v, p) ->
        0 <= u /\ 0 <= v /\ u + v <= 1
        /\ p = P3.Add (P3.Add (T3.C t3)
                              (P3.Scale (P3.Sub (T3.A t3) (T3.C t3)) u))
                      (P3.Scale (P3.Sub (T3.B t3) (T3.C t3)) v)
        /\ p = T3.hitPoint_A t3 v (1 - u - v)).
Proof.
  split; [| split].
  - intros H. apply IntersectUV_reject. apply rejects_iff. exact H.
  - intros H. apply IntersectUV_accept.
    destruct (accepts_dec t3 r) as [Ha | Hn]; [exact Ha |].
    exfalso. apply H. apply rejects_iff. exact Hn.
  - intros u v p H. apply IntersectUV_hit_inv in H.
    destruct H as ((_ & Hu & Hv & Huv & _) & -> & -> & ->).
    repeat split; try lra. symmetry. apply hitPoint_A_hitPoint.
Qed.

Lemma IntersectUV_outcome_witness :
  T3.IntersectUV Sample.triangle Sample.rayMiss = (false, 0, 0, Origin)
  /\ T3.IntersectUV Sample.triangle Sample.rayTA
     = (true, T3.u Sample.triangle Sample.rayTA,
        T3.v Sample.triangle Sample.rayTA,
        T3.hitPoint Sample.triangle (T3.u Sample.triangle Sample.rayTA)
                    (T3.v Sample.triangle Sample.rayTA))
  /\ 0 <= 3 / 8 /\ 0 <= 1 / 8 /\ 3 / 8 + 1 / 8 <= 1.
Proof.
  destruct (IntersectUV_outcome Sample.triangle Sample.rayMiss)
    as (Hmiss & _ & _).
  destruct (IntersectUV_outcome Sample.triangle Sample.rayTA)
    as (_ & Hhit & Hinv).
  split; [| split].
  - apply Hmiss. exact triangle_rayMiss_rejects.
  - apply Hhit. intros Hr. apply rejects_iff in Hr. apply Hr.
    exact triangle_rayTA_accepts.
  - destruct (Hinv _ _ _ triangle_rayTA_hit) as (Hu & Hv & Huv & _).
    tauto.
Defined.

(** C1 as stated fails: on the sample triangle, the ray from
    [(3/8, 1/8, 0)] along the z axis is reported as a hit with [u = 3/8],
    [v = 1/8] at [(3/8, 1/8, 1)], which is not [A + u(B-A) + v(C-A)]
    [= (1/2, 3/8, 1)]. *)
Lemma IntersectUV_position_counterexample :
  exists (u v : R) (p : P3),
    T3.IntersectUV Sample.triangle Sample.rayTA = (true, u, v, p)
    /\ p <> P3.Add (P3.Add (T3.A Sample.triangle)
                           (P3.Scale (P3.Sub (T3.B Sample.triangle)
                                             (T3.A Sample.triangle)) u))
                   (P3.Scale (P3.Sub (T3.C Sample.triangle)
                                     (T3.A Sample.triangle)) v).
Proof.
  exists (3 / 8), (1 / 8), (P3.mk (3 / 8) (1 / 8) 1). split.
  - exact triangle_rayTA_hit.
  - intros H. apply (f_equal P3.X) in H. revert H. eval_T3. lra.
Qed.

(** C9: the test with the edges relative to [A] ([IntersectUV_A]) and the
    test with the edges relative to [C] ([IntersectUV]) accept the same rays
    and return the same position; the parameters of a hit are related by
    [u_C = 1 - u_A - v_A] and [v_C = u_A]. *)
Theorem IntersectUV_variants_agree (t3 : T3) (r : R3) :
  let '(hitA, uA, vA, pA) := T3.IntersectUV_A t3 r in
  let '(hitC, uC, vC, pC) := T3.IntersectUV t3 r in
  hitA = hitC /\ pA = pC
  /\ (if hitC then uC = 1 - uA - vA /\ vC = uA else True).
Proof.
  destruct (accepts_dec t3 r) as [Ha | Hn].
  - pose proof (proj2 (accepts_A_iff t3 r) Ha) as HA.
    rewrite (IntersectUV_accept _ _ Ha), (IntersectUV_A_accept _ _ HA).
    destruct Ha as (Hd & _). apply det_nonzero in Hd.
    rewrite u_A_v, (v_A_uv _ _ Hd).
    repeat split; try lra. apply hitPoint_A_hitPoint.
  - assert (HA : ~ T3.accepts_A t3 r) by (rewrite accepts_A_iff; exact Hn).
    rewrite (IntersectUV_reject _ _ Hn), (IntersectUV_A_reject _ _ HA).
    repeat split.
Qed.

(** ** The kite test *)

Lemma hits_true (t3 : T3) (r : R3) :
  T3.hits t3 r = true ->
  exists u v p, T3.IntersectUV t3 r = (true, u, v, p).
Proof.
  unfold T3.hits. destruct (T3.IntersectUV t3 r) as [[[hit u] v] p].
  intros ->. eauto.
Qed.


Lemma scaled_coordinate (n : Z) (u : R) :
  (0 <= n)%Z -> 0 <= u <= 1 -> 0 <= IZR n * u <= IZR n.
Proof.
  intros Hn Hu. apply IZR_le in Hn. nra.
Qed.

Lemma pixel_coordinate (lo hi : Z) (u : R) :
  (lo <= hi)%Z -> (- 2 ^ 31 <= lo)%Z -> (hi <= 2 ^ 31)%Z -> 0 <= u <= 1 ->
  wrap64 (lo + int_of_float (IZR (wrap64 (hi - lo)) * u))
  = (lo + Int_part (IZR (hi - lo) * u))%Z
  /\ (lo <= lo + Int_part (IZR (hi - lo) * u) <= hi)%Z.
Proof.
  intros Hle Hlo Hhi Hu.
  assert (H31 : (2 ^ 31 = 2147483648)%Z) by reflexivity.
  assert (H63 : (2 ^ 63 = 9223372036854775808)%Z) by reflexivity.
  rewrite (wrap64_small (hi - lo)) by lia.
  destruct (scaled_coordinate (hi - lo) u ltac:(lia) Hu) as [H0 H1].
  pose proof (Int_part_bounds _ _ (conj H0 H1)) as Hb.
  unfold int_of_float. rewrite (Rtrunc_nonneg _ H0).
  rewrite (wrap64_small (Int_part _)) by lia.
  rewrite wrap64_small by lia. lia.
Qed.

Lemma uvToPixel_floor (img : image.Image) (u v : R) :
  image.inRange img -> 0 <= u <= 1 -> 0 <= v <= 1 ->
  Kite3.uvToPixel img u v
  = ((image.Min_X img
      + Int_part (IZR (image.Max_X img - image.Min_X img) * u))%Z,
     (image.Min_Y img
      + Int_part (IZR (image.Max_Y img - image.Min_Y img) * v))%Z).
Proof.
  intros (Hx & Hy & Hx0 & Hx1 & Hy0 & Hy1) Hu Hv.
  unfold Kite3.uvToPixel, Kite3.width, Kite3.height.
  rewrite (proj1 (pixel_coordinate _ _ u Hx Hx0 Hx1 Hu)).
  rewrite (proj1 (pixel_coordinate _ _ v Hy Hy0 Hy1 Hv)).
  reflexivity.
Qed.


Lemma kite_TA : Kite3.TA Sample.kite = Sample.triangle.
Proof. reflexivity. Qed.






(** C7 (amended): for a kite hit with barycentric coordinates [(u, v)] (for
    [TB], after the remap) on a texture with bounds [Min], [Max] in range,
    [0 <= u, v <= 1] and the colour of the hit is that of the texture pixel
    [(Min.X + floor(w*u), Min.Y + floor(h*v))], with [w = Max.X - Min.X] and
    [h = Max.Y - Min.Y]: the products are truncated, not rounded to the
    nearest integer, and offset by the lower bounds. *)
Theorem Kite3_texture_pixel (k3 : Kite3) (r : R3) (h : Hit) (n : Z) :
  image.inRange (Kite3.Image k3) ->
  Kite3.Intersect k3 r = (true, h, n) ->
  exists u v : R,
    ((n = 1%Z /\ T3.IntersectUV (Kite3.TA k3) r = (true, u, v, Hit.At h))
     \/ (n = 2%Z /\ T3.hits (Kite3.TA k3) r = false
         /\ T3.IntersectUV (Kite3.TB k3) r = (true, 1 - v, 1 - u, Hit.At h)))
    /\ 0 <= u <= 1 /\ 0 <= v <= 1
    /\ Hit.Colour h
       = image.At (Kite3.Image k3)
           (image.Min_X (Kite3.Image k3)
            + Int_part (IZR (image.Max_X (Kite3.Image k3)
                             - image.Min_X (Kite3.Image k3)) * u))
           (image.Min_Y (Kite3.Image k3)
            + Int_part (IZR (image.Max_Y (Kite3.Image k3)
                             - image.Min_Y (Kite3.Image k3)) * v)).
Proof.
  intros Hwf. unfold Kite3.Intersect.
  destruct (T3.IntersectUV (Kite3.TA k3) r) as [[[hitA uA] vA] pA] eqn:EA.
  destruct hitA.
  - intros H. inversion H; subst; clear H. exists uA, vA.
    destruct (IntersectUV_hit_inv _ _ _ _ _ EA)
      as ((_ & Hu & Hv & Huv & _) & Eu & Ev & _).
    rewrite <- Eu, <- Ev in *.
    assert (Hu1 : 0 <= uA <= 1) by lra. assert (Hv1 : 0 <= vA <= 1) by lra.
    split; [left; split; reflexivity |].
    split; [exact Hu1 |]. split; [exact Hv1 |].
    cbn [Hit.Colour]. unfold Kite3.uvToColor.
    rewrite (uvToPixel_floor _ _ _ Hwf Hu1 Hv1). reflexivity.
  - destruct (T3.IntersectUV (Kite3.TB k3) r) as [[[hitB uB] vB] pB] eqn:EB.
    destruct hitB; [| discriminate].
    intros H. inversion H; subst; clear H. exists (1 - vB), (1 - uB).
    destruct (IntersectUV_hit_inv _ _ _ _ _ EB)
      as ((_ & Hu & Hv & Huv & _) & Eu & Ev & _).
    rewrite <- Eu, <- Ev in *.
    assert (Hu1 : 0 <= 1 - vB <= 1) by lra.
    assert (Hv1 : 0 <= 1 - uB <= 1) by lra.
    split.
    { right. split; [reflexivity |]. split.
      - unfold T3.hits. rewrite EA. reflexivity.
      - cbn [Hit.At]. repeat f_equal; lra. }
    split; [exact Hu1 |]. split; [exact Hv1 |].
    cbn [Hit.Colour]. unfold Kite3.uvToColor.
    rewrite (uvToPixel_floor _ _ _ Hwf Hu1 Hv1). reflexivity.
Qed.

Lemma texture_inRange : image.inRange Sample.texture.
Proof. unfold image.inRange, Sample.texture. cbn. lia. Qed.

Lemma kite_rayTA_Intersect :
  Kite3.Intersect Sample.kite Sample.rayTA
  = (true,
     Hit.mk (P3.mk (3 / 8) (1 / 8) 1) (T3.normal (Kite3.TA Sample.kite))
            (Kite3.uvToColor Sample.texture (3 / 8) (1 / 8)),
     1%Z).
Proof.
  unfold Kite3.Intersect. rewrite kite_TA, triangle_rayTA_hit. reflexivity.
Qed.

Lemma texture_width : Kite3.width Sample.texture = 2.
Proof. reflexivity. Qed.

Lemma texture_height : Kite3.height Sample.texture = 2.
Proof. reflexivity. Qed.

Lemma texture_color_rayTA :
  Kite3.uvToColor Sample.texture (3 / 8) (1 / 8) = color.Opaque 0 0 0 65535.
Proof.
  unfold Kite3.uvToColor.
  rewrite (uvToPixel_floor _ _ _ texture_inRange) by lra.
  cbn [Sample.texture image.Min_X image.Min_Y image.Max_X image.Max_Y
       image.At].
  rewrite (Int_part_eq (IZR (2 - 0) * (3 / 8)) 0) by (cbn; lra).
  rewrite (Int_part_eq (IZR (2 - 0) * (1 / 8)) 0) by (cbn; lra).
  reflexivity.
Qed.

Lemma Kite3_texture_pixel_witness :
  image.inRange (Kite3.Image Sample.kite)
  /\ Kite3.Intersect Sample.kite Sample.rayTA
     = (true,
        Hit.mk (P3.mk (3 / 8) (1 / 8) 1) (T3.normal (Kite3.TA Sample.kite))
               (Kite3.uvToColor Sample.texture (3 / 8) (1 / 8)),
        1%Z)
  /\ exists u v : R,
       0 <= u <= 1 /\ 0 <= v <= 1
       /\ Kite3.uvToColor Sample.texture (3 / 8) (1 / 8)
          = image.At Sample.texture
              (0 + Int_part (IZR (2 - 0) * u))
              (0 + Int_part (IZR (2 - 0) * v)).
Proof.
  split; [exact texture_inRange |]. split; [exact kite_rayTA_Intersect |].
  destruct (Kite3_texture_pixel Sample.kite Sample.rayTA _ _
              texture_inRange kite_rayTA_Intersect)
    as (u & v & _ & Hu & Hv & Hc).
  exists u, v. split; [exact Hu |]. split; [exact Hv |]. exact Hc.
Defined.

(** C7 as stated fails: the ray from [(3/8, 1/8, 0)] hits the sample kite
    with [(u, v) = (3/8, 1/8)]; on the 2 x 2 texture the source reads the
    pixel [(0, 0)], while [(round(2 * 3/8), round(2 * 1/8))] is the pixel
    [(1, 0)], of another colour. *)
Lemma Kite3_round_counterexample :
  exists (u v : R) (p : P3) (c : color.Color),
    T3.IntersectUV (Kite3.TA Sample.kite) Sample.rayTA = (true, u, v, p)
    /\ Kite3.Intersect Sample.kite Sample.rayTA
       = (true, Hit.mk p (T3.normal (Kite3.TA Sample.kite)) c, 1%Z)
    /\ Kite3.spec_uvToPixel (Kite3.Image Sample.kite) u v = (1%Z, 0%Z)
    /\ c <> image.At (Kite3.Image Sample.kite) 1 0.
Proof.
  exists (3 / 8), (1 / 8), (P3.mk (3 / 8) (1 / 8) 1),
    (color.Opaque 0 0 0 65535).
  split; [rewrite kite_TA; exact triangle_rayTA_hit |].
  split; [rewrite kite_rayTA_Intersect, texture_color_rayTA; reflexivity |].
  split.
  - unfold Kite3.spec_uvToPixel, Kite3.spec_round.
    change (Kite3.Image Sample.kite) with Sample.texture.
    rewrite texture_width, texture_height.
    rewrite (Int_part_eq (2 * (3 / 8) + 1 / 2) 1) by lra.
    rewrite (Int_part_eq (2 * (1 / 8) + 1 / 2) 0) by lra.
    reflexivity.
  - cbn. discriminate.
Qed.

(** ** The composite *)

Section Composite.

Variable intersect : Item -> R3 -> result (bool * Hit * Z).
Variable ray : R3.

Lemma testChildren_results (l : list Item) (results : list (bool * Hit * Z)) :
  childResults intersect ray l results ->
  forall (total : Z) (hits : list Hit),
    CompositeItem.testChildren intersect ray l (wrap64 total) hits
    = Ok (wrap64 (total + sumCounts results), hits ++ hitsOf results).
Proof.
  induction 1 as [| c res l results Hc _ IH]; intros total hits.
  - cbn. rewrite Z.add_0_r, app_nil_r. reflexivity.
  - cbn [CompositeItem.testChildren]. rewrite Hc.
    destruct res as [[b h] n]. rewrite wrap64_add_l, IH.
    cbn [sumCounts hitsOf fold_right flat_map].
    rewrite Z.add_assoc. destruct b; cbn [app]; rewrite <- ?app_assoc;
      reflexivity.
Qed.

Lemma testChildren_all (l : list Item) (results : list (bool * Hit * Z)) :
  childResults intersect ray l results ->
  CompositeItem.testChildren intersect ray l 0%Z []
  = Ok (wrap64 (sumCounts results), hitsOf results).
Proof.
  intros H. apply (testChildren_results l results H 0%Z []).
Qed.

End Composite.

Lemma Len_nonneg (p : P3) : 0 <= P3.Len p.
Proof. apply sqrt_pos. Qed.

Lemma Sub_Origin (p : P3) : P3.Sub p Origin = p.
Proof. destruct p. apply P3_eq; unfold P3.Sub, Origin; cbn; ring. Qed.

Lemma nearest_minimal (hits : list Hit) :
  forall first : Hit,
    let h := CompositeItem.nearest hits first in
    (h = first \/ In h hits)
    /\ P3.Len (Hit.At h) <= P3.Len (Hit.At first)
    /\ forall h', In h' hits -> P3.Len (Hit.At h) <= P3.Len (Hit.At h').
Proof.
  induction hits as [| a hits IH]; intros first; cbn.
  - split; [left; reflexivity |]. split; [lra | tauto].
  - unfold CompositeItem.nearest in IH. cbn in IH.
    match goal with
    | |- context [fold_left _ hits ?f] => specialize (IH f); set (f' := f) in *
    end.
    destruct IH as (Hin & Hle & Hall).
    assert (Hf : (f' = first \/ f' = a)
                 /\ P3.Len (Hit.At f') <= P3.Len (Hit.At first)
                 /\ P3.Len (Hit.At f') <= P3.Len (Hit.At a)).
    { subst f'. case_Rltb; repeat split; try tauto; lra. }
    destruct Hf as (Hf & Hf1 & Hfa).
    split; [| split].
    + destruct Hin as [-> | Hin]; [| tauto].
      destruct Hf as [-> | ->]; tauto.
    + lra.
    + intros h' [<- | Hh']; [lra | apply Hall; exact Hh'].
Qed.

Lemma nearest_cons (a : Hit) (hits : list Hit) (first : Hit) :
  CompositeItem.nearest (a :: hits) first
  = CompositeItem.nearest hits
      (if Rltb (P3.Len (Hit.At a)) (P3.Len (Hit.At first)) then a
       else first).
Proof. reflexivity. Qed.

(** The loop replaces [nearestHit] on a strictly smaller distance only:
    either it ends on the hit it started from, which no later hit beats, or
    it ends on an element of the slice that is strictly nearer than every
    element before it (and than the starting hit) and at least as near as
    every element behind it. *)
Lemma nearest_first (hits : list Hit) :
  forall first : Hit,
    let h := CompositeItem.nearest hits first in
    (h = first
     /\ forall h', In h' hits -> P3.Len (Hit.At first) <= P3.Len (Hit.At h'))
    \/ (exists pre post : list Hit,
          hits = pre ++ h :: post
          /\ P3.Len (Hit.At h) < P3.Len (Hit.At first)
          /\ (forall h', In h' pre ->
                         P3.Len (Hit.At h) < P3.Len (Hit.At h'))
          /\ (forall h', In h' post ->
                         P3.Len (Hit.At h) <= P3.Len (Hit.At h'))).
Proof.
  induction hits as [| a hits IH]; intros first; cbn zeta.
  - left. split; [reflexivity | intros h' []].
  - rewrite nearest_cons.
    destruct (Rltb (P3.Len (Hit.At a)) (P3.Len (Hit.At first))) eqn:E;
      [apply Rltb_true_iff in E | apply Rltb_false_iff in E].
    + destruct (IH a) as [[Hh Hall] | (pre & post & Hs & Hlt & Hpre & Hpost)].
      * right. exists [], hits. rewrite Hh. cbn [app].
        split; [reflexivity |]. split; [exact E |].
        split; [intros h' [] | exact Hall].
      * right. exists (a :: pre), post. cbn [app].
        split; [f_equal; exact Hs |]. split; [lra |].
        split; [| exact Hpost].
        intros h' [<- | Hh']; [exact Hlt | apply Hpre; exact Hh'].
    + destruct (IH first)
        as [[Hh Hall] | (pre & post & Hs & Hlt & Hpre & Hpost)].
      * left. split; [exact Hh |].
        intros h' [<- | Hh']; [exact E | apply Hall; exact Hh'].
      * right. exists (a :: pre), post. cbn [app].
        split; [f_equal; exact Hs |]. split; [exact Hlt |].
        split; [| exact Hpost].
        intros h' [<- | Hh']; [lra | apply Hpre; exact Hh'].
Qed.

(** C2 (amended): on a composite whose children slice is not nil and whose
    children all return, [Intersect] returns the [int64] sum of the counts
    of all the children; when no child reports a hit it reports no hit, and
    otherwise it returns one of the reported hits, at the least distance
    from the world origin [(0, 0, 0)] among them, and the first of the hits
    at that distance in the order of the children: every hit reported
    before it is strictly farther from the world origin. *)
Theorem CompositeItem_Intersect_nearest (ci : CompositeItem) (ray : R3)
    (l : list Item) (results : list (bool * Hit * Z)) :
  CompositeItem.children ci = Some l ->
  childResults Item_Intersect ray l results ->
  exists (b : bool) (h : Hit),
    CompositeItem_Intersect ci ray = Ok (b, h, wrap64 (sumCounts results))
    /\ (hitsOf results = [] -> b = false /\ h = Hit.zero)
    /\ (hitsOf results <> [] ->
        b = true /\ In h (hitsOf results)
        /\ (forall h', In h' (hitsOf results) ->
                       distOrigin h <= distOrigin h')
        /\ exists pre post : list Hit,
             hitsOf results = pre ++ h :: post
             /\ forall h', In h' pre -> distOrigin h < distOrigin h').
Proof.
  intros Hl Hres. unfold CompositeItem_Intersect, CompositeItem.IntersectWith.
  rewrite Hl, (testChildren_all _ _ _ _ Hres).
  destruct (hitsOf results) as [| h0 hs] eqn:Eh.
  - exists false, Hit.zero. repeat split; congruence.
  - exists true, (CompositeItem.nearest (h0 :: hs) h0).
    split; [reflexivity |]. split; [discriminate |]. intros _.
    destruct (nearest_minimal (h0 :: hs) h0) as (Hin & _ & Hall).
    split; [reflexivity |]. split; [| split].
    + destruct Hin as [-> | Hin]; [left; reflexivity | exact Hin].
    + intros h' Hh'. unfold distOrigin. rewrite !Sub_Origin.
      apply Hall. exact Hh'.
    + destruct (nearest_first (h0 :: hs) h0)
        as [[Hh _] | (pre & post & Hs & _ & Hpre & _)].
      * exists [], hs. rewrite Hh. cbn [app].
        split; [reflexivity | intros h' []].
      * exists pre, post. split; [exact Hs |].
        intros h' Hh'. unfold distOrigin. rewrite !Sub_Origin.
        apply Hpre. exact Hh'.
Qed.

(** The kite and the triangle of the sample lie in the same plane: the ray
    meets both at the same point, and the composite returns the hit of the
    kite, its first child. *)
Lemma CompositeItem_Intersect_nearest_witness :
  exists h : Hit,
    CompositeItem_Intersect
      (CompositeItem.mk
         (Some [ItemKite3 Sample.kite; ItemT3 Sample.triangle]))
      Sample.rayTA
    = Ok (true, h, 2%Z)
    /\ h = Hit.mk (P3.mk (3 / 8) (1 / 8) 1)
                  (T3.normal (Kite3.TA Sample.kite))
                  (Kite3.uvToColor Sample.texture (3 / 8) (1 / 8)).
Proof.
  set (hk := Hit.mk (P3.mk (3 / 8) (1 / 8) 1)
                    (T3.normal (Kite3.TA Sample.kite))
                    (Kite3.uvToColor Sample.texture (3 / 8) (1 / 8))).
  set (ht := Hit.mk (P3.mk (3 / 8) (1 / 8) 1) (T3.normal Sample.triangle)
                    (color.NRGBA 128 0 0 255)).
  destruct (CompositeItem_Intersect_nearest
              (CompositeItem.mk
                 (Some [ItemKite3 Sample.kite; ItemT3 Sample.triangle]))
              Sample.rayTA
              [ItemKite3 Sample.kite; ItemT3 Sample.triangle]
              [(true, hk, 1%Z); (true, ht, 1%Z)])
    as (b & h & H & _ & Hsome).
  - reflexivity.
  - apply Forall2_cons; [| apply Forall2_cons; [| apply Forall2_nil]];
      cbn [Item_Intersect]; f_equal.
    + exact kite_rayTA_Intersect.
    + unfold T3.Intersect. rewrite triangle_rayTA_hit. reflexivity.
  - destruct Hsome as (Hb & _ & _ & pre & post & Hs & Hpre);
      [discriminate |].
    exists h. rewrite H, Hb. split; [reflexivity |].
    cbn [hitsOf flat_map app] in Hs.
    destruct pre as [| p pre]; cbn [app] in Hs.
    + injection Hs as Hh _. symmetry. exact Hh.
    + exfalso. injection Hs as Hp Hs'.
      assert (Hlt : distOrigin h < distOrigin p)
        by (apply Hpre; left; reflexivity).
      assert (Eh : h = ht).
      { destruct pre as [| p' pre]; cbn [app] in Hs'.
        - injection Hs' as Hh _. symmetry. exact Hh.
        - injection Hs' as _ Hs''. destruct pre; discriminate Hs''. }
      rewrite Eh, <- Hp in Hlt. unfold distOrigin, hk, ht in Hlt.
      cbn [Hit.At] in Hlt. lra.
Defined.

(** C2 as stated fails: a composite to which no child was added has no
    child that reports a hit, and its [Intersect] does not report no-hit
    with a count: it panics. *)
Lemma CompositeItem_nil_counterexample :
  CompositeItem_Intersect (CompositeItem.mk None) Sample.rayTA
  = Panic "Null children"
  /\ ~ (exists (h : Hit) (n : Z),
          CompositeItem_Intersect (CompositeItem.mk None) Sample.rayTA
          = Ok (false, h, n)).
Proof.
  split; [reflexivity |]. intros (h & n & H). discriminate H.
Qed.

(** ** Nearest to the world origin, not first along the ray *)

Lemma triangleAt_hit (x y z0 z : R) :
  0 <= x -> 0 <= y -> x + y <= 1 -> Epsilon < z - z0 ->
  T3.IntersectUV (Sample.triangleAt z)
                 (R3.mk (P3.mk x y z0) (P3.mk 0 0 1))
  = (true, x, y, P3.mk x y z).
Proof.
  intros Hx Hy Hxy Hz.
  set (t3 := Sample.triangleAt z).
  set (r := R3.mk (P3.mk x y z0) (P3.mk 0 0 1)).
  assert (Hdet : T3.det t3 r = -1)
    by (subst t3 r; unfold Sample.triangleAt; expand_P3; ring).
  assert (Hu : T3.u t3 r = x).
  { unfold T3.u. rewrite Hdet. subst t3 r. unfold Sample.triangleAt.
    expand_P3. field. }
  assert (Hv : T3.v t3 r = y).
  { unfold T3.v. rewrite Hdet. subst t3 r. unfold Sample.triangleAt.
    expand_P3. field. }
  assert (Ht : T3.tparam t3 r = z - z0).
  { unfold T3.tparam. rewrite Hdet. subst t3 r. unfold Sample.triangleAt.
    expand_P3. field. }
  assert (Ha : T3.accepts t3 r).
  { unfold T3.accepts. rewrite Hdet, Hu, Hv, Ht. unfold Epsilon in *.
    repeat split; try lra. solve_Rabs. }
  rewrite (IntersectUV_accept _ _ Ha), Hu, Hv.
  repeat f_equal. subst t3. unfold Sample.triangleAt.
  apply P3_eq; expand_P3; ring.
Qed.

(** The composite returns the hit on the triangle at [z = -1], which is the
    nearer to the world origin, although the hit on the triangle at [z = -4]
    is the nearer to the origin of the ray. *)
Lemma stacked_nearest :
  exists h1 h4 : Hit,
    CompositeItem_Intersect Sample.stacked Sample.rayBelow = Ok (true, h1, 2%Z)
    /\ Hit.At h1 = P3.mk (1 / 4) (1 / 4) (-1)
    /\ Hit.At h4 = P3.mk (1 / 4) (1 / 4) (-4)
    /\ T3.Intersect (Sample.triangleAt (-4)) Sample.rayBelow = (true, h4, 1%Z)
    /\ P3.Len (P3.Sub (Hit.At h4) (R3.At Sample.rayBelow))
       < P3.Len (P3.Sub (Hit.At h1) (R3.At Sample.rayBelow)).
Proof.
  assert (H1 : T3.IntersectUV (Sample.triangleAt (-1)) Sample.rayBelow
               = (true, 1 / 4, 1 / 4, P3.mk (1 / 4) (1 / 4) (-1)))
    by (apply triangleAt_hit; unfold Epsilon; lra).
  assert (H4 : T3.IntersectUV (Sample.triangleAt (-4)) Sample.rayBelow
               = (true, 1 / 4, 1 / 4, P3.mk (1 / 4) (1 / 4) (-4)))
    by (apply triangleAt_hit; unfold Epsilon; lra).
  exists (Hit.mk (P3.mk (1 / 4) (1 / 4) (-1))
                 (T3.normal (Sample.triangleAt (-1)))
                 (color.NRGBA 128 0 0 255)),
         (Hit.mk (P3.mk (1 / 4) (1 / 4) (-4))
                 (T3.normal (Sample.triangleAt (-4)))
                 (color.NRGBA 128 0 0 255)).
  split; [| split; [| split; [| split]]].
  - unfold CompositeItem_Intersect, CompositeItem.IntersectWith.
    cbn [Sample.stacked CompositeItem.children CompositeItem.testChildren
         Item_Intersect T3.Intersect].
    unfold T3.Intersect. rewrite H4, H1.
    cbn [negb app CompositeItem.nearest fold_left Hit.At].
    unfold CompositeItem.nearest. cbn [fold_left Hit.At].
    rewrite (proj2 (Rltb_false_iff _ _) (Rle_refl _)).
    rewrite (proj2 (Rltb_true_iff _ _)).
    + reflexivity.
    + unfold P3.Len. cbn [P3.X P3.Y P3.Z Hit.At]. apply sqrt_lt_1_alt. lra.
  - reflexivity.
  - reflexivity.
  - unfold T3.Intersect. rewrite H4. reflexivity.
  - cbn [Hit.At]. unfold P3.Len, P3.Sub, Sample.rayBelow.
    cbn [P3.X P3.Y P3.Z R3.At]. apply sqrt_lt_1_alt. lra.
Qed.

(** ** The render driver *)

Lemma Render_ray (s : Scene) (x y : R) :
  Scene.primaryRay s x y
  = R3.mk (P3.mk 0 0 (Scene.viewerDist s))
          (P3.mk (x / Scene.screenDist s) (y / Scene.screenDist s) 1).
Proof. reflexivity. Qed.

(** C5 (amended): on a scene whose children slice is not nil, [Render]
    builds the ray with origin [(0, 0, viewerDist)] and the direction
    [(x/screenDist, y/screenDist, 1)], not normalised, and when every child
    returns on that ray and none reports a hit it returns the colour
    [NRGBA{0, 0, 0, 255}] with the [int64] sum of the counts. *)
Theorem Render_miss_ambient (s : Scene) (x y : R) (l : list Item)
    (results : list (bool * Hit * Z)) :
  CompositeItem.children (Scene.composite s) = Some l ->
  childResults Item_Intersect
    (R3.mk (P3.mk 0 0 (Scene.viewerDist s))
           (P3.mk (x / Scene.screenDist s) (y / Scene.screenDist s) 1))
    l results ->
  hitsOf results = [] ->
  Scene.Render s x y
  = Ok (color.NRGBA 0 0 0 255, wrap64 (sumCounts results)).
Proof.
  intros Hl Hres Hnone. unfold Scene.Render.
  unfold CompositeItem_Intersect, CompositeItem.IntersectWith.
  rewrite Hl, Render_ray, (testChildren_all _ _ _ _ Hres), Hnone.
  reflexivity.
Qed.

Lemma farTriangle_corner_misses :
  T3.Intersect Sample.farTriangle
    (R3.mk (P3.mk 0 0 (-5)) (P3.mk (9 / 10 / 1) (9 / 10 / 1) 1))
  = (false, Hit.zero, 1%Z).
Proof.
  unfold T3.Intersect. rewrite IntersectUV_reject; [reflexivity |].
  apply rejects_iff. unfold T3.rejects. right; left.
  unfold Sample.farTriangle. expand_P3. lra.
Qed.

Lemma Render_miss_ambient_witness :
  Scene.Render Sample.scene (9 / 10) (9 / 10)
  = Ok (color.NRGBA 0 0 0 255, 1%Z).
Proof.
  apply (Render_miss_ambient Sample.scene (9 / 10) (9 / 10)
           [ItemT3 Sample.farTriangle] [(false, Hit.zero, 1%Z)]).
  - reflexivity.
  - constructor; [| constructor]. cbn [Item_Intersect].
    f_equal. exact farTriangle_corner_misses.
  - reflexivity.
Defined.

(** C5 as stated fails: on the scene that [New] returns, to which no item
    was added, no item intersects the ray, and [Render] does not return the
    ambient colour with a count. *)
Lemma Render_empty_counterexample :
  ~ (exists n : Z,
       Scene.Render (Scene.New (-5) 1) (9 / 10) (9 / 10)
       = Ok (color.NRGBA 0 0 0 255, n)).
Proof. intros (n & H). discriminate H. Qed.

(** C10: [Intersect] on a composite whose children slice is nil panics with
    "Null children", for every ray, and so does [Render] on a scene to which
    no item was added, for every pair of screen coordinates (whatever its
    distances and lights), instead of returning the ambient colour. *)
Theorem nil_children_panic :
  (forall ray : R3,
      CompositeItem_Intersect (CompositeItem.mk None) ray
      = Panic "Null children")
  /\ (forall (viewerDist screenDist : R) (lights : list Light) (x y : R),
        Scene.Render
          (Scene.mk (CompositeItem.mk None) viewerDist screenDist lights) x y
        = Panic "Null children")
  /\ (forall (viewerDist screenDist x y : R),
        Scene.Render (Scene.New viewerDist screenDist) x y
        = Panic "Null children").
Proof. repeat split. Qed.

(** ** Illumination *)

Lemma Len_opp (p q : P3) : P3.Len (P3.Sub p q) = P3.Len (P3.Sub q p).
Proof. unfold P3.Len, P3.Sub. cbn. f_equal. ring. Qed.

Lemma Len_Scale_opp (p : P3) : P3.Len (P3.Scale p (-1)) = P3.Len p.
Proof. unfold P3.Len, P3.Scale. cbn. f_equal. ring. Qed.

Lemma incidence_term (hitAt lightAt normal : P3) :
  Rabs (P3.Dot (P3.Sub hitAt lightAt) normal
        / P3.Len (P3.Sub hitAt lightAt) / P3.Len normal)
  = Scene.spec_incidence normal (P3.Sub lightAt hitAt).
Proof.
  unfold Scene.spec_incidence, Rdiv.
  rewrite !Rabs_mult, !Rabs_inv, Rinv_mult.
  rewrite (Rabs_pos_eq _ (Len_nonneg _)), (Rabs_pos_eq _ (Len_nonneg _)).
  rewrite (Len_opp lightAt hitAt).
  replace (P3.Dot normal (P3.Sub lightAt hitAt))
    with (- P3.Dot (P3.Sub hitAt lightAt) normal)
    by (unfold P3.Dot, P3.Sub; cbn; ring).
  rewrite Rabs_Ropp. ring.
Qed.

Lemma spec_incidence_backFacing (normal lightVec : P3) :
  Scene.spec_incidence (P3.Scale normal (-1)) lightVec
  = Scene.spec_incidence normal lightVec.
Proof.
  unfold Scene.spec_incidence. rewrite Len_Scale_opp.
  replace (P3.Dot (P3.Scale normal (-1)) lightVec)
    with (- P3.Dot normal lightVec)
    by (unfold P3.Dot, P3.Scale; cbn; ring).
  rewrite Rabs_Ropp. reflexivity.
Qed.

Lemma sumIncidence_sum (lights : list Light) (hit : Hit) :
  Scene.sumIncidence lights hit
  = fold_right Rplus 0
      (map (fun light =>
              Scene.spec_incidence (Hit.Normal hit)
                (P3.Sub (Light.At light) (Hit.At hit)))
           lights).
Proof.
  unfold Scene.sumIncidence.
  assert (H : forall acc,
             fold_left
               (fun incidence light =>
                  incidence
                  + Rabs (P3.Dot (P3.Sub (Hit.At hit) (Light.At light))
                                 (Hit.Normal hit)
                          / P3.Len (P3.Sub (Hit.At hit) (Light.At light))
                          / P3.Len (Hit.Normal hit)))
               lights acc
             = acc + fold_right Rplus 0
                       (map (fun light =>
                               Scene.spec_incidence (Hit.Normal hit)
                                 (P3.Sub (Light.At light) (Hit.At hit)))
                            lights)).
  { induction lights as [| light lights IH]; intros acc; cbn.
    - ring.
    - rewrite IH, incidence_term. ring. }
  rewrite H. ring.
Qed.

Lemma averageIncidence_backFacing (lights : list Light) (hit : Hit) :
  Scene.spec_averageIncidence lights (Scene.backFacing hit)
  = Scene.spec_averageIncidence lights hit.
Proof.
  unfold Scene.spec_averageIncidence, Scene.backFacing. cbn [Hit.Normal Hit.At].
  f_equal. f_equal. apply map_ext. intros light.
  apply spec_incidence_backFacing.
Qed.

Lemma illumination_formula (s : Scene) (hit : Hit) (r g b a : Z) :
  color.RGBA (Hit.Colour hit) = Ok (r, g, b, a) ->
  Scene.illumination s hit
  = Ok (color.NRGBA
          (Scene.toUint (Scene.spec_averageIncidence (Scene.lights s) hit) r)
          (Scene.toUint (Scene.spec_averageIncidence (Scene.lights s) hit) g)
          (Scene.toUint (Scene.spec_averageIncidence (Scene.lights s) hit) b)
          255).
Proof.
  intros Hc. unfold Scene.illumination. rewrite Hc. cbn [bind].
  rewrite sumIncidence_sum. reflexivity.
Qed.

(** What [illumination] computes, in the words of the specification: for a
    scene with at least one light, a hit whose normal is not the zero vector
    and whose position holds no light, and the 16-bit channels [r], [g], [b]
    of the colour of the hit, [illumination] returns the colour [NRGBA] with
    alpha 255 and the channels [uint8(v * i / 0xffff * 256)], where [i] is
    the sum over the lights of
    [|dot(normal, lightVec)| / (|normal| * |lightVec|)] divided by the
    number of lights; and the hit seen from the other side (normal negated)
    gets the same colour.  (With no light, a zero normal or a light at the
    hit point the source divides by zero, which has no counterpart in the
    reals.) *)
Lemma illumination_incidence (s : Scene) (hit : Hit) (r g b a : Z) :
  Scene.lights s <> [] ->
  Hit.Normal hit <> Origin ->
  Forall (fun light => Light.At light <> Hit.At hit) (Scene.lights s) ->
  color.RGBA (Hit.Colour hit) = Ok (r, g, b, a) ->
  let i := Scene.spec_averageIncidence (Scene.lights s) hit in
  Scene.illumination s hit
  = Ok (color.NRGBA (Scene.toUint i r) (Scene.toUint i g)
                    (Scene.toUint i b) 255)
  /\ Scene.illumination s (Scene.backFacing hit) = Scene.illumination s hit.
Proof.
  intros _ _ _ Hc i. split.
  - exact (illumination_formula s hit r g b a Hc).
  - rewrite (illumination_formula s hit r g b a Hc).
    rewrite (illumination_formula s (Scene.backFacing hit) r g b a Hc).
    rewrite averageIncidence_backFacing. reflexivity.
Qed.

Lemma sample_hit_channels :
  color.RGBA (Hit.Colour Sample.hit) = Ok (32896, 0, 0, 65535)%Z.
Proof. reflexivity. Qed.

Lemma whiteHit_channels :
  color.RGBA (Hit.Colour Sample.whiteHit)
  = Ok (65535, 65535, 65535, 65535)%Z.
Proof. reflexivity. Qed.

(** A light straight in front of a surface: the incidence term is 1. *)
Lemma incidence_head_on (d : R) :
  d <> 0 ->
  Scene.spec_incidence (P3.mk 0 0 1) (P3.mk 0 0 d) = 1.
Proof.
  intros Hd. unfold Scene.spec_incidence, P3.Len, P3.Dot.
  cbn [P3.X P3.Y P3.Z].
  replace (0 * 0 + 0 * 0 + 1 * 1) with 1 by ring.
  replace (0 * 0 + 0 * 0 + d * d) with (Rsqr d) by (unfold Rsqr; ring).
  replace (0 * 0 + 0 * 0 + 1 * d) with d by ring.
  rewrite sqrt_1, sqrt_Rsqr_abs, Rmult_1_l.
  unfold Rdiv. apply Rinv_r. apply Rabs_no_R0. exact Hd.
Qed.

Lemma sample_hit_incidence :
  Scene.spec_averageIncidence (Scene.lights Sample.scene) Sample.hit = 1.
Proof.
  unfold Scene.spec_averageIncidence.
  cbn [Sample.scene Scene.AddLight Scene.lights Scene.AddItem Scene.New app
       map fold_right List.length INR Light.At Sample.hit Hit.Normal Hit.At].
  replace (P3.Sub Origin (P3.mk 0 0 10)) with (P3.mk 0 0 (-10))
    by (apply P3_eq; unfold P3.Sub, Origin; cbn [P3.X P3.Y P3.Z]; ring).
  rewrite incidence_head_on by lra. field.
Qed.

Lemma whiteHit_incidence :
  Scene.sumIncidence (Scene.lights Sample.scene) Sample.whiteHit
  / INR (List.length (Scene.lights Sample.scene)) = 1.
Proof.
  rewrite sumIncidence_sum. exact sample_hit_incidence.
Qed.

Lemma sample_hit_illumination :
  Scene.illumination Sample.scene Sample.hit
  = Ok (color.NRGBA 128 0 0 255).
Proof.
  destruct (illumination_incidence Sample.scene Sample.hit
              32896 0 0 65535) as (H & _).
  - discriminate.
  - intros E. apply (f_equal P3.Z) in E. cbn in E. lra.
  - repeat constructor. intros E. apply (f_equal P3.Z) in E. cbn in E. lra.
  - exact sample_hit_channels.
  - rewrite H, sample_hit_incidence. unfold Scene.toUint, uint8_of_float.
    rewrite !Rtrunc_nonneg by lra.
    rewrite (Int_part_eq (32896 * 1 / 65535 * 256) 128) by lra.
    rewrite (Int_part_eq (0 * 1 / 65535 * 256) 0) by lra.
    reflexivity.
Qed.

(** The scaling constant of [toUint] is 256: a channel at full scale under
    the incidence 1 is scaled to 256, whose low byte is 0; the channel of
    the next lower byte is scaled to 254. *)
Lemma toUint_full_scale : Scene.toUint 1 65535 = 0%Z.
Proof.
  unfold Scene.toUint, uint8_of_float.
  rewrite Rtrunc_nonneg by lra.
  rewrite (Int_part_eq (65535 * 1 / 65535 * 256) 256) by lra.
  reflexivity.
Qed.

Lemma toUint_below_full_scale : Scene.toUint 1 65278 = 254%Z.
Proof.
  unfold Scene.toUint, uint8_of_float.
  rewrite Rtrunc_nonneg by lra.
  rewrite (Int_part_eq (65278 * 1 / 65535 * 256) 254) by lra.
  reflexivity.
Qed.

Lemma whiteHit_illumination :
  Scene.illumination Sample.scene Sample.whiteHit
  = Ok (color.NRGBA 0 0 0 255).
Proof.
  unfold Scene.illumination. rewrite whiteHit_channels. cbn [bind].
  rewrite whiteHit_incidence, toUint_full_scale. reflexivity.
Qed.

(** The ray of [Render] to the screen point [(1/8, 1/8)] of the white scene
    meets the first triangle of the kite at [(1/4, 1/4, 1)]. *)
Lemma whiteKite_hit :
  T3.IntersectUV Sample.triangle
    (R3.mk (P3.mk 0 0 (-1)) (P3.mk (1 / 8 / 1) (1 / 8 / 1) 1))
  = (true, 1 / 4, 1 / 4, P3.mk (1 / 4) (1 / 4) 1).
Proof.
  set (r := R3.mk (P3.mk 0 0 (-1)) (P3.mk (1 / 8 / 1) (1 / 8 / 1) 1)).
  assert (Hdet : T3.det Sample.triangle r = -1)
    by (subst r; unfold Sample.triangle; expand_P3; field).
  assert (Hu : T3.u Sample.triangle r = 1 / 4).
  { unfold T3.u. rewrite Hdet. subst r. unfold Sample.triangle.
    expand_P3. field. }
  assert (Hv : T3.v Sample.triangle r = 1 / 4).
  { unfold T3.v. rewrite Hdet. subst r. unfold Sample.triangle.
    expand_P3. field. }
  assert (Ht : T3.tparam Sample.triangle r = 2).
  { unfold T3.tparam. rewrite Hdet. subst r. unfold Sample.triangle.
    expand_P3. field. }
  assert (Ha : T3.accepts Sample.triangle r).
  { unfold T3.accepts. rewrite Hdet, Hu, Hv, Ht. unfold Epsilon.
    repeat split; try lra. solve_Rabs. }
  rewrite (IntersectUV_accept _ _ Ha), Hu, Hv.
  apply (f_equal (pair (true, 1 / 4, 1 / 4))).
  unfold Sample.triangle. apply P3_eq; expand_P3; ring.
Qed.

Lemma whiteKite_Intersect :
  Kite3.Intersect Sample.whiteKite
    (R3.mk (P3.mk 0 0 (-1)) (P3.mk (1 / 8 / 1) (1 / 8 / 1) 1))
  = (true,
     Hit.mk (P3.mk (1 / 4) (1 / 4) 1) (T3.normal Sample.triangle)
            (color.NRGBA 255 255 255 255),
     1%Z).
Proof.
  unfold Kite3.Intersect.
  change (Kite3.TA Sample.whiteKite) with Sample.triangle.
  rewrite whiteKite_hit. cbn iota beta.
  unfold Kite3.uvToColor.
  destruct (Kite3.uvToPixel (Kite3.Image Sample.whiteKite) (1 / 4) (1 / 4)).
  reflexivity.
Qed.

Lemma whiteScene_Render :
  Scene.Render Sample.whiteScene (1 / 8) (1 / 8)
  = Ok (color.NRGBA 0 0 0 255, 1%Z).
Proof.
  unfold Scene.Render. rewrite Render_ray.
  unfold CompositeItem_Intersect, CompositeItem.IntersectWith.
  cbn [Sample.whiteScene Scene.AddLight Scene.AddItem Scene.New
       Scene.composite Scene.viewerDist Scene.screenDist Scene.lights
       CompositeItem.AddItem CompositeItem.children
       CompositeItem.testChildren Item_Intersect app].
  rewrite whiteKite_Intersect.
  cbn [app bind negb]. rewrite nearest_cons.
  rewrite (proj2 (Rltb_false_iff _ _) (Rle_refl _)).
  unfold CompositeItem.nearest. cbn [fold_left bind negb].
  unfold Scene.illumination. cbn [Hit.Colour color.RGBA bind].
  change (color.NRGBA_RGBA 255 255 255 255)
    with (65535, 65535, 65535, 65535)%Z.
  cbn iota beta.
  rewrite sumIncidence_sum.
  cbn [Sample.whiteScene Scene.AddLight Scene.AddItem Scene.New
       Scene.lights map fold_right List.length INR Light.At Hit.Normal
       Hit.At app].
  replace (T3.normal Sample.triangle) with (P3.mk 0 0 1)
    by (apply P3_eq; unfold T3.normal, Sample.triangle; expand_P3; ring).
  replace (P3.Sub (P3.mk (1 / 4) (1 / 4) 0) (P3.mk (1 / 4) (1 / 4) 1))
    with (P3.mk 0 0 (-1))
    by (apply P3_eq; unfold P3.Sub; cbn [P3.X P3.Y P3.Z]; ring).
  rewrite incidence_head_on by lra.
  replace ((1 + 0) / 1) with 1 by field.
  rewrite toUint_full_scale. reflexivity.
Qed.

(** C4, on the source: the closure [toUint] of [illumination] scales a
    channel [v] of 16 bits to [uint8(v * incidence / 0xffff * 256)], with the
    constant 256 where the range of a byte ends at 255.  On a white hit
    (every channel [0xffff]) lit head-on by the one light of the scene the
    incidence is exactly 1, the scaled value is 256 and the byte is 0:
    [illumination] returns black, [NRGBA{0, 0, 0, 255}], while the darker
    hit of a triangle, [NRGBA{128, 0, 0, 255}], lit the same way keeps its
    colour, and a channel one byte below full scale is scaled to 254.
    Through [Render], the white kite lit head-on comes out in the colour of
    a miss. *)
Theorem illumination_full_scale_wraps :
  color.RGBA (Hit.Colour Sample.whiteHit)
  = Ok (65535, 65535, 65535, 65535)%Z
  /\ Scene.sumIncidence (Scene.lights Sample.scene) Sample.whiteHit
     / INR (List.length (Scene.lights Sample.scene)) = 1
  /\ Scene.toUint 1 65535 = 0%Z
  /\ Scene.toUint 1 65278 = 254%Z
  /\ Scene.illumination Sample.scene Sample.whiteHit
     = Ok (color.NRGBA 0 0 0 255)
  /\ Scene.illumination Sample.scene Sample.hit
     = Ok (color.NRGBA 128 0 0 255)
  /\ Scene.Render Sample.whiteScene (1 / 8) (1 / 8)
     = Ok (Scene.ambient Sample.whiteScene
             (Scene.primaryRay Sample.whiteScene (1 / 8) (1 / 8)), 1%Z).
Proof.
  split; [exact whiteHit_channels |].
  split; [exact whiteHit_incidence |].
  split; [exact toUint_full_scale |].
  split; [exact toUint_below_full_scale |].
  split; [exact whiteHit_illumination |].
  split; [exact sample_hit_illumination |].
  exact whiteScene_Render.
Qed.

(** ** The starting vector of [Circle.Points] *)

(** C6, on the source: for the axis [(1, 0, 0)] the test [v.Dot(c.axis) <
    Epsilon] fails and [Points] keeps the starting vector [(1, 0, 0)], the
    axis itself; for the axis [(0, 1, 0)] the test holds and [Points] falls
    back to [(0, 1, 0)], again the axis itself.  In both cases the cross
    product of the axis with the starting vector is the zero vector, of
    length 0, which [rx] then normalises. *)
Theorem Points_helper_parallel :
  Circle.helper Sample.circleX = Circle.axis Sample.circleX
  /\ P3.Cross (Circle.axis Sample.circleX) (Circle.helper Sample.circleX)
     = Origin
  /\ Circle.helper Sample.circleY = Circle.axis Sample.circleY
  /\ P3.Cross (Circle.axis Sample.circleY) (Circle.helper Sample.circleY)
     = Origin
  /\ P3.Len Origin = 0.
Proof.
  assert (HX : Circle.helper Sample.circleX = P3.mk 1 0 0).
  { unfold Circle.helper, Sample.circleX, P3.Dot, Epsilon. cbn.
    case_Rltb; [lra | reflexivity]. }
  assert (HY : Circle.helper Sample.circleY = P3.mk 0 1 0).
  { unfold Circle.helper, Sample.circleY, P3.Dot, Epsilon. cbn.
    case_Rltb; [reflexivity | lra]. }
  rewrite HX, HY. repeat split.
  - apply P3_eq; unfold P3.Cross, Origin; cbn; ring.
  - apply P3_eq; unfold P3.Cross, Origin; cbn; ring.
  - unfold P3.Len, Origin. cbn.
    replace (0 * 0 + 0 * 0 + 0 * 0) with 0 by ring. apply sqrt_0.
Qed.

(** ** Grids to kites *)

Section Grid.

Local Open Scope nat_scope.

Lemma index_lt {A : Type} (l : list A) (i : nat) (d : A) :
  i < List.length l -> index l i = Ok (nth i l d).
Proof.
  intros H. unfold index. rewrite (nth_error_nth' l d H). reflexivity.
Qed.

Lemma imod_pos (a b : nat) : 0 < b -> imod a b = Ok (a mod b).
Proof. destruct b; [lia | reflexivity]. Qed.

Lemma appendAll_app (items : option (list Item)) (ks1 ks2 : list Item) :
  appendAll (appendAll items ks1) ks2 = appendAll items (ks1 ++ ks2).
Proof.
  destruct ks1 as [| k1 ks1]; [reflexivity |].
  destruct ks2 as [| k2 ks2]; cbn.
  - rewrite app_nil_r. reflexivity.
  - rewrite <- app_assoc. reflexivity.
Qed.

Variable img : image.Image.

Lemma kitesOfRow_ok (row next : list P3) (numCols : nat) :
  List.length row = numCols -> List.length next = numCols -> 0 < numCols ->
  forall (jxs : list nat) (items : option (list Item)),
    Forall (fun j => j < numCols) jxs ->
    kitesOfRow row next numCols img jxs items
    = Ok (appendAll items (map (rowKite img row next numCols) jxs)).
Proof.
  intros Hrow Hnext Hpos jxs.
  induction jxs as [| j jxs IH]; intros items Hall; [reflexivity |].
  pose proof (Forall_inv Hall) as Hj. cbn beta in Hj.
  pose proof (Forall_inv_tail Hall) as Hall'.
  assert (Hm : (j + 1) mod numCols < numCols)
    by (apply Nat.mod_upper_bound; lia).
  cbn [kitesOfRow].
  rewrite (index_lt row j Origin) by lia. cbn [bind].
  rewrite imod_pos by lia. cbn [bind].
  rewrite (index_lt next _ Origin) by lia. cbn [bind].
  rewrite (index_lt row _ Origin) by lia. cbn [bind].
  rewrite IH by exact Hall'.
  fold (rowKite img row next numCols j).
  change (Some (match items with None => [] | Some l => l end
                ++ [rowKite img row next numCols j]))
    with (appendAll items [rowKite img row next numCols j]).
  rewrite appendAll_app. reflexivity.
Qed.

Lemma Forall_seq_lt (n : nat) : Forall (fun j => j < n) (seq 0 n).
Proof. apply Forall_forall. intros j Hj. apply in_seq in Hj. lia. Qed.

Variable grid : list (list P3).
Variables numRows numCols : nat.
Hypothesis grid_rows : List.length grid = numRows.
Hypothesis grid_cols : Forall (fun row => List.length row = numCols) grid.
Hypothesis numCols_pos : 0 < numCols.

Lemma grid_row_length (i : nat) :
  i < numRows -> List.length (nth i grid []) = numCols.
Proof.
  intros Hi. rewrite Forall_forall in grid_cols. apply grid_cols.
  apply nth_In. lia.
Qed.

Lemma kitesOfRows_ok (ixs : list nat) :
  forall items : option (list Item),
    Forall (fun i => i < numRows) ixs ->
    kitesOfRows grid numRows numCols img ixs items
    = Ok (appendAll items
            (flat_map (rowKites grid numRows numCols img) ixs)).
Proof.
  induction ixs as [| i ixs IH]; intros items Hall; [reflexivity |].
  pose proof (Forall_inv Hall) as Hi. cbn beta in Hi.
  pose proof (Forall_inv_tail Hall) as Hall'.
  assert (Hm : (i + 1) mod numRows < numRows)
    by (apply Nat.mod_upper_bound; lia).
  cbn [kitesOfRows].
  rewrite (index_lt grid i []) by lia. cbn [bind].
  rewrite imod_pos by lia. cbn [bind].
  rewrite (index_lt grid _ []) by lia. cbn [bind].
  rewrite (kitesOfRow_ok _ _ numCols)
    by (try apply grid_row_length; try lia;
        rewrite grid_row_length by lia; apply Forall_seq_lt).
  cbn [bind]. rewrite IH by exact Hall'. rewrite appendAll_app.
  rewrite grid_row_length by lia. reflexivity.
Qed.

Lemma rowKites_length (i : nat) :
  List.length (rowKites grid numRows numCols img i) = numCols.
Proof. unfold rowKites. rewrite length_map, length_seq. reflexivity. Qed.

Lemma allKites_length (n start : nat) :
  List.length (flat_map (rowKites grid numRows numCols img) (seq start n))
  = n * numCols.
Proof.
  revert start. induction n as [| n IH]; intros start; [reflexivity |].
  cbn [seq flat_map]. rewrite length_app, rowKites_length, IH. lia.
Qed.

Lemma allKites_nth (n : nat) :
  forall start i j : nat,
    i < n -> j < numCols ->
    nth_error (flat_map (rowKites grid numRows numCols img) (seq start n))
              (i * numCols + j)
    = Some (cellKite grid numRows numCols img (start + i) j).
Proof.
  induction n as [| n IH]; intros start i j Hi Hj; [lia |].
  cbn [seq flat_map]. destruct i as [| i].
  - change (0 * numCols + j) with j.
    rewrite nth_error_app1 by (rewrite rowKites_length; lia).
    unfold rowKites. rewrite nth_error_map, nth_error_seq.
    rewrite (proj2 (Nat.ltb_lt j numCols) Hj).
    cbn [option_map Nat.add]. rewrite Nat.add_0_r. reflexivity.
  - rewrite nth_error_app2 by (rewrite rowKites_length; lia).
    rewrite rowKites_length.
    replace (S i * numCols + j - numCols) with (i * numCols + j) by lia.
    rewrite IH by lia. f_equal. f_equal. lia.
Qed.

Lemma gridToKites_ok :
  0 < numRows ->
  gridToKites grid img
  = Ok (Some (flat_map (rowKites grid numRows numCols img)
                       (seq 0 numRows))).
Proof.
  intros Hpos. unfold gridToKites.
  rewrite (index_lt grid 0 []) by lia. cbn [bind].
  rewrite (grid_row_length 0 Hpos), grid_rows.
  rewrite kitesOfRows_ok by apply Forall_seq_lt.
  destruct (flat_map (rowKites grid numRows numCols img) (seq 0 numRows))
    as [| k ks] eqn:E;
    [| reflexivity].
  apply (f_equal (@List.length Item)) in E.
  rewrite allKites_length in E. cbn in E. nia.
Qed.

End Grid.

(** C8: for a grid of [numMajor] rows of [numMinor] points, [gridToKites]
    returns [numMajor * numMinor] kites, row after row; the kite of the cell
    [(i, j)] is built from [grid[i][j]],
    [grid[(i+1) mod numMajor][(j+1) mod numMinor]] and
    [grid[i][(j+1) mod numMinor]], and the kite of the last cell
    [(numMajor-1, numMinor-1)] from [grid[numMajor-1][numMinor-1]],
    [grid[0][0]] and [grid[numMajor-1][0]]. *)
Theorem gridToKites_wraps (grid : list (list P3)) (img : image.Image)
    (numMajor numMinor : nat) :
  List.length grid = numMajor ->
  Forall (fun row => List.length row = numMinor) grid ->
  (0 < numMajor)%nat -> (0 < numMinor)%nat ->
  exists items : list Item,
    gridToKites grid img = Ok (Some items)
    /\ List.length items = (numMajor * numMinor)%nat
    /\ (forall i j : nat,
          (i < numMajor)%nat -> (j < numMinor)%nat ->
          nth_error items (i * numMinor + j)
          = Some (ItemKite3
                    (NewKite3
                       (gridPoint grid i j)
                       (gridPoint grid ((i + 1) mod numMajor)
                                  ((j + 1) mod numMinor))
                       (gridPoint grid i ((j + 1) mod numMinor))
                       img)))
    /\ nth_error items ((numMajor - 1) * numMinor + (numMinor - 1))
       = Some (ItemKite3
                 (NewKite3
                    (gridPoint grid (numMajor - 1) (numMinor - 1))
                    (gridPoint grid 0 0)
                    (gridPoint grid (numMajor - 1) 0)
                    img)).
Proof.
  intros Hrows Hcols Hmajor Hminor.
  exists (flat_map (rowKites grid numMajor numMinor img) (seq 0 numMajor)).
  split; [exact (gridToKites_ok img grid _ _ Hrows Hcols Hminor Hmajor) |].
  split; [exact (allKites_length img grid _ _ Hrows Hminor numMajor 0%nat) |].
  assert (Hcell : forall i j : nat,
             (i < numMajor)%nat -> (j < numMinor)%nat ->
             nth_error
               (flat_map (rowKites grid numMajor numMinor img)
                         (seq 0 numMajor))
               (i * numMinor + j)
             = Some (cellKite grid numMajor numMinor img i j)).
  { intros i j Hi Hj.
    exact (allKites_nth img grid numMajor numMinor Hrows Hminor
             numMajor 0%nat i j Hi Hj). }
  split; [exact Hcell |].
  rewrite Hcell by lia. unfold cellKite.
  replace (numMajor - 1 + 1)%nat with numMajor by lia.
  replace (numMinor - 1 + 1)%nat with numMinor by lia.
  rewrite !Nat.Div0.mod_same. reflexivity.
Qed.

Lemma gridToKites_wraps_witness :
  exists items : list Item,
    gridToKites Sample.grid Sample.texture = Ok (Some items)
    /\ List.length items = 4%nat
    /\ nth_error items 3
       = Some (ItemKite3
                 (NewKite3 (P3.mk 1 1 0) (P3.mk 0 0 0) (P3.mk 1 0 0)
                           Sample.texture)).
Proof.
  destruct (gridToKites_wraps Sample.grid Sample.texture 2 2)
    as (items & Hok & Hlen & _ & Hlast).
  - reflexivity.
  - repeat constructor.
  - lia.
  - lia.
  - exists items. split; [exact Hok |]. split; [exact Hlen |]. exact Hlast.
Defined.

(** ** The points of a circle and the grid of a torus *)

Section CirclePoints.

Variable c : Circle.
Variable n : nat.
Hypothesis n_pos : (0 < n)%nat.

Let step : R := PI * 2 / INR n.

Lemma INR_n_pos : 0 < INR n.
Proof. apply lt_0_INR. exact n_pos. Qed.

Lemma angle_below (k : nat) : (k < n)%nat -> INR k * step < PI * 2.
Proof.
  intros Hk. pose proof INR_n_pos as Hn. pose proof PI_RGT_0 as Hpi.
  apply lt_INR in Hk.
  assert (E : INR k * step * INR n = INR k * (PI * 2))
    by (unfold step; field; lra).
  apply Rmult_lt_reg_r with (INR n); [exact Hn |]. rewrite E. nra.
Qed.

Lemma angle_full : INR n * step = PI * 2.
Proof. pose proof INR_n_pos. unfold step. field. lra. Qed.

(** With fuel for the iterations that remain, the loop of [Points] ends and
    appends one point for every remaining multiple of the step. *)
Lemma pointsFrom_run (m : nat) :
  forall (k fuel : nat) (points : list P3),
    (k + m = n)%nat -> (m <= fuel)%nat ->
    exists new : list P3,
      List.length new = m
      /\ Circle.pointsFrom fuel c step (INR k * step) points
         = Ok (points ++ new).
Proof.
  induction m as [| m IH]; intros k fuel points Hk Hfuel.
  - exists []. split; [reflexivity |].
    replace k with n by lia. rewrite angle_full, app_nil_r.
    destruct fuel; cbn [Circle.pointsFrom];
      rewrite (proj2 (Rltb_false_iff (PI * 2) (PI * 2))) by lra;
      reflexivity.
  - destruct fuel as [| fuel]; [lia |].
    cbn [Circle.pointsFrom].
    rewrite (proj2 (Rltb_true_iff _ _) (angle_below k ltac:(lia))).
    replace (INR k * step + step) with (INR (S k) * step)
      by (rewrite S_INR; ring).
    destruct (IH (S k) fuel
                (points
                 ++ [P3.Add (Circle.centre c)
                       (P3.Add
                          (P3.Scale (Circle.rx c) (cos (INR k * step)))
                          (P3.Scale (Circle.ry c) (sin (INR k * step))))])
                ltac:(lia) ltac:(lia)) as (new & Hlen & Hrun).
    rewrite Hrun, <- app_assoc.
    eexists. split; [| reflexivity]. cbn. rewrite Hlen. reflexivity.
Qed.

(** [Points(n)] returns [n] points when [n] is positive. *)
Lemma Points_length (fuel : nat) :
  (n <= fuel)%nat ->
  exists points : list P3,
    List.length points = n
    /\ Circle.Points fuel c (Z.of_nat n) = Ok points.
Proof.
  intros Hfuel. unfold Circle.Points. rewrite <- INR_IZR_INZ.
  fold step. replace 0 with (INR 0 * step) by (cbn; ring).
  destruct (pointsFrom_run n 0%nat fuel [] ltac:(lia) Hfuel)
    as (new & Hlen & Hrun).
  exists new. split; [exact Hlen | exact Hrun].
Qed.

End CirclePoints.

Section TorusGrid.

Local Open Scope nat_scope.

Variable fuel : nat.
Hypothesis fuel_enough : 32 <= fuel.

Lemma gridRows_shape (d : Torus) (pts : list P3) (ixs : list nat) :
  Forall (fun i => i < List.length pts) ixs ->
  exists rows : list (list P3),
    Torus.gridRows fuel d pts 8%Z ixs = Ok rows
    /\ List.length rows = List.length ixs
    /\ Forall (fun row => List.length row = 8) rows.
Proof.
  induction ixs as [| i ixs IH]; intros Hall.
  - exists []. repeat split. constructor.
  - pose proof (Forall_inv Hall) as Hi. cbn beta in Hi.
    destruct (IH (Forall_inv_tail Hall)) as (rows & Hrows & Hlen & Hcols).
    cbn [Torus.gridRows].
    rewrite (index_lt pts i Origin Hi). cbn [bind].
    match goal with
    | |- context [Circle.Points fuel ?c 8%Z] =>
        destruct (Points_length c 8 ltac:(lia) fuel ltac:(lia))
          as (row & Hrow & Hpoints)
    end.
    change (Z.of_nat 8) with 8%Z in Hpoints.
    rewrite Hpoints. cbn [bind]. rewrite Hrows. cbn [bind].
    exists (row :: rows). split; [reflexivity |].
    split; [cbn; rewrite Hlen; reflexivity |].
    constructor; assumption.
Qed.

Lemma buildGrid_shape (d : Torus) :
  exists grid : list (list P3),
    Torus.buildGrid fuel d = Ok grid
    /\ List.length grid = 32
    /\ Forall (fun row => List.length row = 8) grid.
Proof.
  unfold Torus.buildGrid.
  match goal with
  | |- context [Circle.Points fuel ?c 32%Z] =>
      destruct (Points_length c 32 ltac:(lia) fuel fuel_enough)
        as (pts & Hpts & Hpoints)
  end.
  change (Z.of_nat 32) with 32%Z in Hpoints.
  rewrite Hpoints. cbn [bind].
  change (Z.to_nat 32) with 32.
  destruct (gridRows_shape d pts (seq 0 32)) as (grid & Hgrid & Hlen & Hcols).
  { rewrite Hpts. apply Forall_seq_lt. }
  exists grid. rewrite length_seq in Hlen. tauto.
Qed.

(** With fuel for the longest loop, [NewTorus] returns: its children are
    the kites that [gridToKites] builds on a grid of 32 rows of 8 points. *)
Lemma NewTorus_children (centre axis : P3) (radius thickness : R)
    (img : image.Image) :
  exists (t : Torus) (grid : list (list P3)) (items : list Item),
    NewTorus fuel centre axis radius thickness img = Ok t
    /\ CompositeItem.children (Torus.composite t) = Some items
    /\ List.length grid = 32
    /\ Forall (fun row => List.length row = 8) grid
    /\ gridToKites grid img = Ok (Some items).
Proof.
  unfold NewTorus, Torus.buildItems.
  match goal with
  | |- context [Torus.buildGrid fuel ?d] =>
      destruct (buildGrid_shape d) as (grid & Hgrid & Hlen & Hcols)
  end.
  rewrite Hgrid. cbn [bind Torus.image].
  pose proof (gridToKites_ok img grid 32 8 Hlen Hcols ltac:(lia) ltac:(lia))
    as Hkites.
  rewrite Hkites. cbn [bind].
  eexists. exists grid. eexists.
  split; [reflexivity |]. cbn [Torus.composite CompositeItem.children].
  split; [reflexivity |]. tauto.
Qed.

End TorusGrid.

(** * Further properties of the package *)

(** ** Vector algebra *)

Lemma Len_sqr (p : P3) : P3.Len p * P3.Len p = P3.Dot p p.
Proof.
  unfold P3.Len, P3.Dot. apply sqrt_sqrt. nra.
Qed.

Lemma Len_zero_iff (p : P3) : P3.Len p = 0 <-> p = Origin.
Proof.
  split.
  - intros H. pose proof (Len_sqr p) as Hs. rewrite H in Hs.
    unfold P3.Dot in Hs. apply P3_eq; unfold Origin; cbn; nra.
  - intros ->. unfold P3.Len, Origin. cbn.
    replace (0 * 0 + 0 * 0 + 0 * 0) with 0 by ring. apply sqrt_0.
Qed.

(** X1: [Cross] returns a vector orthogonal to both operands, changes sign
    when the operands are swapped, and is zero on a vector and itself. *)
Theorem Cross_orthogonal (p q : P3) :
  P3.Dot p (P3.Cross p q) = 0
  /\ P3.Dot q (P3.Cross p q) = 0
  /\ P3.Cross q p = P3.Scale (P3.Cross p q) (-1)
  /\ P3.Cross p p = Origin.
Proof.
  repeat split; try apply P3_eq;
    unfold P3.Dot, P3.Cross, P3.Scale, Origin; cbn; ring.
Qed.

Lemma Lagrange (p q : P3) :
  P3.Dot (P3.Cross p q) (P3.Cross p q) + P3.Dot p q * P3.Dot p q
  = P3.Dot p p * P3.Dot q q.
Proof. unfold P3.Dot, P3.Cross. cbn. ring. Qed.

Lemma Cauchy_Schwarz (p q : P3) :
  Rabs (P3.Dot p q) <= P3.Len p * P3.Len q.
Proof.
  pose proof (Lagrange p q) as HL.
  pose proof (Len_nonneg p) as Hp. pose proof (Len_nonneg q) as Hq.
  assert (Hc : 0 <= P3.Dot (P3.Cross p q) (P3.Cross p q))
    by (rewrite <- Len_sqr; apply Rle_0_sqr).
  rewrite <- (Len_sqr p), <- (Len_sqr q) in HL.
  rewrite <- sqrt_Rsqr_abs.
  rewrite <- (sqrt_square (P3.Len p * P3.Len q)) by nra.
  apply sqrt_le_1_alt. unfold Rsqr. nra.
Qed.

(** X2: [Len], [Dot] and [Cross] satisfy the identity of Lagrange, [|p x q|^2
    + (p.q)^2 = |p|^2 |q|^2], and so the inequality of Cauchy and Schwarz,
    [|p.q| <= |p| |q|]. *)
Theorem Dot_Len_bound (p q : P3) :
  P3.Len (P3.Cross p q) * P3.Len (P3.Cross p q) + P3.Dot p q * P3.Dot p q
  = (P3.Len p * P3.Len p) * (P3.Len q * P3.Len q)
  /\ Rabs (P3.Dot p q) <= P3.Len p * P3.Len q.
Proof.
  split.
  - rewrite !Len_sqr. apply Lagrange.
  - apply Cauchy_Schwarz.
Qed.

(** X3: On a vector other than the zero vector, [Normalise] returns a vector
    of length 1, and scaling it by the length gives the vector back. *)
Theorem Normalise_unit (p : P3) :
  p <> Origin ->
  P3.Len (P3.Normalise p) = 1
  /\ P3.Scale (P3.Normalise p) (P3.Len p) = p.
Proof.
  intros Hp.
  assert (Hl : P3.Len p <> 0) by (rewrite Len_zero_iff; exact Hp).
  pose proof (Len_sqr p) as Hs. unfold P3.Dot in Hs. split.
  - unfold P3.Normalise. set (l := P3.Len p) in *.
    unfold P3.Len at 1. cbn [P3.X P3.Y P3.Z].
    replace (P3.X p / l * (P3.X p / l) + P3.Y p / l * (P3.Y p / l)
             + P3.Z p / l * (P3.Z p / l))
      with ((P3.X p * P3.X p + P3.Y p * P3.Y p + P3.Z p * P3.Z p) / (l * l))
      by (field; exact Hl).
    rewrite <- Hs. unfold Rdiv. rewrite Rinv_r by nra. apply sqrt_1.
  - destruct p as [x y z]. unfold P3.Normalise, P3.Scale.
    cbn [P3.X P3.Y P3.Z] in *.
    apply P3_eq; cbn [P3.X P3.Y P3.Z]; field; exact Hl.
Qed.

Lemma Normalise_unit_witness :
  P3.mk 3 0 4 <> Origin /\ P3.Len (P3.Normalise (P3.mk 3 0 4)) = 1.
Proof.
  assert (H : P3.mk 3 0 4 <> Origin).
  { intros E. apply (f_equal P3.X) in E. cbn in E. lra. }
  split; [exact H |]. exact (proj1 (Normalise_unit (P3.mk 3 0 4) H)).
Defined.

(** X4: For [p] other than the zero vector, [p.Component(q)] is the orthogonal
    projection of [q] on the direction of [p]: a multiple of [p], and what it
    leaves of [q] is orthogonal to [p]. *)
Theorem Component_projection (p q : P3) :
  p <> Origin ->
  P3.Component p q = P3.Scale p (P3.Dot p q / P3.Dot p p)
  /\ P3.Dot p (P3.Sub q (P3.Component p q)) = 0.
Proof.
  intros Hp.
  assert (Hl : P3.Len p <> 0) by (rewrite Len_zero_iff; exact Hp).
  pose proof (Len_sqr p) as Hs.
  assert (E : P3.Component p q = P3.Scale p (P3.Dot p q / P3.Dot p p)).
  { unfold P3.Component, P3.Normalise. rewrite <- Hs.
    set (l := P3.Len p) in *. set (d := P3.Dot p q).
    unfold P3.Scale. cbn [P3.X P3.Y P3.Z].
    apply P3_eq; cbn [P3.X P3.Y P3.Z]; field; exact Hl. }
  split; [exact E |]. rewrite E.
  assert (Hd : P3.Dot p p <> 0) by (rewrite <- Hs; nra).
  set (d := P3.Dot p q). set (n := P3.Dot p p) in *.
  assert (En : P3.Dot p (P3.Sub q (P3.Scale p (d / n))) = d - n * (d / n))
    by (subst d n; unfold P3.Dot, P3.Sub, P3.Scale; cbn; ring).
  rewrite En. field. exact Hd.
Qed.

Lemma Component_projection_witness :
  P3.mk 2 0 0 <> Origin
  /\ P3.Dot (P3.mk 2 0 0)
            (P3.Sub (P3.mk 3 5 7) (P3.Component (P3.mk 2 0 0) (P3.mk 3 5 7)))
     = 0.
Proof.
  assert (H : P3.mk 2 0 0 <> Origin).
  { intros E. apply (f_equal P3.X) in E. cbn in E. lra. }
  split; [exact H |].
  exact (proj2 (Component_projection (P3.mk 2 0 0) (P3.mk 3 5 7) H)).
Defined.

(** ** Triangles *)

Lemma det_normal (t3 : T3) (r : R3) :
  T3.det t3 r = - P3.Dot (R3.Dir r) (T3.normal t3).
Proof.
  unfold T3.det, T3.normal, P3.Dot, P3.Cross, P3.Sub. cbn. ring.
Qed.

Lemma Intersect_of_UV (t3 : T3) (r : R3) :
  T3.Intersect t3 r
  = if T3.hits t3 r
    then (true,
          Hit.mk (T3.hitPoint t3 (T3.u t3 r) (T3.v t3 r)) (T3.normal t3)
                 (color.NRGBA 128 0 0 255), 1%Z)
    else (false, Hit.zero, 1%Z).
Proof.
  unfold T3.Intersect, T3.hits.
  destruct (accepts_dec t3 r) as [Ha | Hn].
  - rewrite (IntersectUV_accept _ _ Ha). reflexivity.
  - rewrite (IntersectUV_reject _ _ Hn). reflexivity.
Qed.

(** X5: A ray whose direction lies in the plane of the triangle, or nearly so
    ([|dir . normal| < 1e-6]), is never a hit, wherever it starts. *)
Theorem T3_parallel_rejected (t3 : T3) (r : R3) :
  Rabs (P3.Dot (R3.Dir r) (T3.normal t3)) < Epsilon ->
  T3.Intersect t3 r = (false, Hit.zero, 1%Z).
Proof.
  intros H. unfold T3.Intersect.
  rewrite IntersectUV_reject; [reflexivity |].
  apply rejects_iff. left. rewrite det_normal, Rabs_Ropp. exact H.
Qed.

Lemma T3_parallel_rejected_witness :
  T3.Intersect Sample.triangle (R3.mk (P3.mk 0 0 1) (P3.mk 1 1 0))
  = (false, Hit.zero, 1%Z).
Proof.
  apply T3_parallel_rejected.
  unfold T3.normal, Sample.triangle, Epsilon, P3.Dot, P3.Cross, P3.Sub.
  cbn. solve_Rabs.
Defined.

Lemma hitPoint_in_plane (t3 : T3) (u v : R) :
  P3.Dot (T3.normal t3) (P3.Sub (T3.hitPoint t3 u v) (T3.A t3)) = 0.
Proof.
  unfold T3.normal, T3.hitPoint, P3.Dot, P3.Cross, P3.Sub, P3.Add, P3.Scale.
  cbn. ring.
Qed.

(** X6: The count of [T3.Intersect] is always 1. A hit carries the normal of
    the triangle and the colour [NRGBA{128, 0, 0, 255}]; its position is the
    point of the ray at a parameter above [1e-6] and lies in the plane of the
    triangle. *)
Theorem T3_Intersect_hit (t3 : T3) (r : R3) :
  snd (T3.Intersect t3 r) = 1%Z
  /\ forall h : Hit,
       fst (T3.Intersect t3 r) = (true, h) ->
       Hit.Normal h = T3.normal t3
       /\ Hit.Colour h = color.NRGBA 128 0 0 255
       /\ Epsilon < T3.tparam t3 r
       /\ Hit.At h
          = P3.Add (R3.At r) (P3.Scale (R3.Dir r) (T3.tparam t3 r))
       /\ P3.Dot (T3.normal t3) (P3.Sub (Hit.At h) (T3.A t3)) = 0.
Proof.
  rewrite Intersect_of_UV. unfold T3.hits.
  destruct (accepts_dec t3 r) as [Ha | Hn].
  - rewrite (IntersectUV_accept _ _ Ha). cbn [fst snd].
    split; [reflexivity |]. intros h Hh. inversion Hh; subst h; clear Hh.
    cbn [Hit.Normal Hit.Colour Hit.At].
    destruct Ha as (Hd & _ & _ & _ & Ht).
    repeat split; try exact Ht.
    + apply hitPoint_on_ray. exact (det_nonzero _ Hd).
    + apply hitPoint_in_plane.
  - rewrite (IntersectUV_reject _ _ Hn). cbn [fst snd].
    split; [reflexivity |]. intros h Hh. discriminate Hh.
Qed.

Lemma T3_Intersect_hit_witness :
  Epsilon < T3.tparam Sample.triangle Sample.rayTA.
Proof.
  destruct (T3_Intersect_hit Sample.triangle Sample.rayTA) as (_ & H).
  destruct (H (Hit.mk (P3.mk (3 / 8) (1 / 8) 1) (T3.normal Sample.triangle)
                      (color.NRGBA 128 0 0 255)))
    as (_ & _ & Ht & _).
  - unfold T3.Intersect. rewrite triangle_rayTA_hit. reflexivity.
  - exact Ht.
Defined.

(** X7: The test has no preferred side and no preferred order of the vertices
    [A] and [B]: on the triangle with [A] and [B] exchanged it accepts the
    same rays at the same position, with [u] and [v] exchanged. *)
Theorem IntersectUV_swap (a b c : P3) (r : R3) :
  T3.IntersectUV (T3.mk b a c) r
  = let '(hit, u, v, p) := T3.IntersectUV (T3.mk a b c) r in (hit, v, u, p).
Proof.
  set (t1 := T3.mk a b c). set (t2 := T3.mk b a c).
  assert (Hd : T3.det t2 r = - T3.det t1 r)
    by (subst t1 t2; expand_P3; ring).
  assert (Hinv : forall n m d : R, n = - m -> n * (1 / - d) = m * (1 / d)).
  { intros n m d ->. unfold Rdiv. rewrite Rinv_opp. ring. }
  assert (Hu : T3.u t2 r = T3.v t1 r).
  { unfold T3.u, T3.v. rewrite Hd. apply Hinv. subst t1 t2. expand_P3. ring. }
  assert (Hv : T3.v t2 r = T3.u t1 r).
  { unfold T3.u, T3.v. rewrite Hd. apply Hinv. subst t1 t2. expand_P3. ring. }
  assert (Ht : T3.tparam t2 r = T3.tparam t1 r).
  { unfold T3.tparam. rewrite Hd. apply Hinv. subst t1 t2. expand_P3. ring. }
  assert (Hacc : T3.accepts t2 r <-> T3.accepts t1 r).
  { unfold T3.accepts. rewrite Hd, Hu, Hv, Ht, Rabs_Ropp. lra. }
  destruct (accepts_dec t1 r) as [Ha | Hn].
  - rewrite (IntersectUV_accept _ _ Ha).
    rewrite (IntersectUV_accept _ _ (proj2 Hacc Ha)), Hu, Hv.
    cbn iota beta. f_equal. subst t1 t2. apply P3_eq; expand_P3; ring.
  - rewrite (IntersectUV_reject _ _ Hn).
    rewrite IntersectUV_reject by (rewrite Hacc; exact Hn). reflexivity.
Qed.

(** ** Kites *)

(** X8: In the kite that [NewKite3] builds, the apex [C'] of the second
    triangle is the reflection of [C] through the midpoint of [A] and [B] ([C
    + C' = A + B]); it lies in the plane of the first triangle, and the
    normals of the two triangles are opposite. *)
Theorem NewKite3_reflection (a b c : P3) (img : image.Image) :
  let k3 := NewKite3 a b c img in
  P3.Add c (T3.C (Kite3.TB k3)) = P3.Add a b
  /\ P3.Dot (T3.normal (Kite3.TA k3))
            (P3.Sub (T3.C (Kite3.TB k3)) a) = 0
  /\ T3.normal (Kite3.TB k3) = P3.Scale (T3.normal (Kite3.TA k3)) (-1).
Proof.
  cbn zeta. unfold NewKite3. cbn [Kite3.TA Kite3.TB T3.C].
  repeat split; try apply P3_eq;
    unfold T3.normal, P3.Dot, P3.Cross, P3.Sub, P3.Add, P3.Scale; cbn; ring.
Qed.

Lemma NewKite3_normals (a b c : P3) (img : image.Image) :
  T3.normal (Kite3.TB (NewKite3 a b c img))
  = P3.Scale (T3.normal (Kite3.TA (NewKite3 a b c img))) (-1).
Proof.
  unfold NewKite3. cbn [Kite3.TA Kite3.TB]. apply P3_eq;
    unfold T3.normal, P3.Cross, P3.Sub, P3.Add, P3.Scale; cbn; ring.
Qed.

Section KiteCover.

Variables (a b c : P3) (img : image.Image) (r : R3).

Let k3 : Kite3 := NewKite3 a b c img.
Let ta : T3 := Kite3.TA k3.
Let tb : T3 := Kite3.TB k3.

Lemma kite_det : T3.det tb r = - T3.det ta r.
Proof.
  subst ta tb k3. unfold NewKite3. cbn [Kite3.TA Kite3.TB]. expand_P3. ring.
Qed.

Lemma kite_tparam : T3.tparam tb r = T3.tparam ta r.
Proof.
  unfold T3.tparam. rewrite kite_det.
  assert (Hinv : forall n m d : R, n = - m -> n * (1 / - d) = m * (1 / d)).
  { intros n m d ->. unfold Rdiv. rewrite Rinv_opp. ring. }
  apply Hinv. subst ta tb k3. unfold NewKite3. cbn [Kite3.TA Kite3.TB].
  expand_P3. ring.
Qed.

Lemma kite_mirror (n m d : R) :
  d <> 0 -> n = m - d -> n * (1 / - d) = 1 - m * (1 / d).
Proof. intros Hd ->. field. exact Hd. Qed.

Lemma kite_u : T3.det ta r <> 0 -> T3.u tb r = 1 - T3.v ta r.
Proof.
  intros Hd. unfold T3.u, T3.v. rewrite kite_det.
  apply kite_mirror; [exact Hd |].
  subst ta tb k3. unfold NewKite3. cbn [Kite3.TA Kite3.TB]. expand_P3. ring.
Qed.

Lemma kite_v : T3.det ta r <> 0 -> T3.v tb r = 1 - T3.u ta r.
Proof.
  intros Hd. unfold T3.u, T3.v. rewrite kite_det.
  apply kite_mirror; [exact Hd |].
  subst ta tb k3. unfold NewKite3. cbn [Kite3.TA Kite3.TB]. expand_P3. ring.
Qed.

Lemma kite_hitPoint (u v : R) :
  T3.hitPoint tb (1 - v) (1 - u) = T3.hitPoint ta u v.
Proof.
  subst ta tb k3. unfold NewKite3. cbn [Kite3.TA Kite3.TB].
  apply P3_eq; expand_P3; ring.
Qed.

Lemma kite_accepts_TB :
  T3.accepts tb r
  <-> Epsilon <= Rabs (T3.det ta r)
      /\ T3.u ta r <= 1 /\ T3.v ta r <= 1 /\ 1 <= T3.u ta r + T3.v ta r
      /\ Epsilon < T3.tparam ta r.
Proof.
  unfold T3.accepts. rewrite kite_det, kite_tparam, Rabs_Ropp.
  split; intros (Hd & H); pose proof (det_nonzero _ Hd) as Hnz;
    rewrite (kite_u Hnz), (kite_v Hnz) in *; repeat split; lra.
Qed.

End KiteCover.

(** X9: The two triangles of a kite built by [NewKite3] cover the
    parallelogram on [A], [C], [B], [C'] and nothing else: with [det], [u],
    [v], [t] those of the first triangle, [Kite3.Intersect] reports a hit
    exactly when [|det| >= 1e-6], [0 <= u <= 1], [0 <= v <= 1] and [t > 1e-6].
    Whichever triangle is hit, the position is [C + u(A-C) + v(B-C)] and the
    texture is read at that same [(u, v)]: the remap of the second triangle
    continues the coordinates of the first one across the diagonal. *)
Theorem Kite3_covers_parallelogram (a b c : P3) (img : image.Image)
    (r : R3) :
  let k3 := NewKite3 a b c img in
  let ta := T3.mk a b c in
  let u := T3.u ta r in
  let v := T3.v ta r in
  let inside :=
    Epsilon <= Rabs (T3.det ta r) /\ 0 <= u <= 1 /\ 0 <= v <= 1
    /\ Epsilon < T3.tparam ta r in
  (inside ->
   exists (normal : P3) (n : Z),
     Kite3.Intersect k3 r
     = (true, Hit.mk (T3.hitPoint ta u v) normal (Kite3.uvToColor img u v), n)
     /\ ((u + v <= 1 /\ normal = T3.normal ta /\ n = 1%Z)
         \/ (1 < u + v /\ normal = P3.Scale (T3.normal ta) (-1) /\ n = 2%Z)))
  /\ (~ inside -> Kite3.Intersect k3 r = (false, Hit.zero, 2%Z)).
Proof.
  intros k3 ta u v inside.
  change ta with (Kite3.TA k3) in *.
  pose proof (kite_accepts_TB a b c img r) as HB. fold k3 in HB.
  fold u v in HB.
  assert (Hnormal : T3.normal (Kite3.TB k3)
                    = P3.Scale (T3.normal (Kite3.TA k3)) (-1))
    by (apply (NewKite3_normals a b c img)).
  unfold Kite3.Intersect.
  destruct (accepts_dec (Kite3.TA k3) r) as [Ha | Hn].
  - rewrite (IntersectUV_accept _ _ Ha). fold u v. split.
    + intros _. exists (T3.normal (Kite3.TA k3)), 1%Z.
      split; [reflexivity |]. left. unfold T3.accepts in Ha. fold u v in Ha.
      repeat split; lra.
    + intros Hout. exfalso. apply Hout. unfold inside.
      unfold T3.accepts in Ha. fold u v in Ha. repeat split; lra.
  - rewrite (IntersectUV_reject _ _ Hn).
    destruct (accepts_dec (Kite3.TB k3) r) as [Hb | Hnb].
    + rewrite (IntersectUV_accept _ _ Hb).
      pose proof (proj1 HB Hb) as (Hd & Hu & Hv & Huv & Ht).
      pose proof (det_nonzero _ Hd) as Hnz.
      pose proof (kite_u a b c img r Hnz) as Eu.
      pose proof (kite_v a b c img r Hnz) as Ev.
      fold k3 in Eu, Ev. fold u v in Eu, Ev. rewrite Eu, Ev.
      replace (1 - (1 - u)) with u by ring.
      replace (1 - (1 - v)) with v by ring.
      pose proof (kite_hitPoint a b c img u v) as Ep. fold k3 in Ep.
      rewrite Ep, Hnormal.
      assert (Huv1 : 1 < u + v \/ u + v = 1) by lra.
      split.
      * intros _. exists (P3.Scale (T3.normal (Kite3.TA k3)) (-1)), 2%Z.
        split; [reflexivity |]. right.
        destruct Huv1 as [Hlt | Heq]; [tauto |].
        exfalso. apply Hn. unfold T3.accepts. fold u v.
        repeat split; lra.
      * intros Hout. exfalso. apply Hout. unfold inside.
        repeat split; lra.
    + rewrite (IntersectUV_reject _ _ Hnb). split; [| reflexivity].
      intros (Hd & Hu & Hv & Ht). exfalso.
      destruct (Rle_dec (u + v) 1) as [Hle | Hgt].
      * apply Hn. unfold T3.accepts. fold u v. repeat split; lra.
      * apply Hnb. apply HB. repeat split; lra.
Qed.

Lemma Kite3_covers_parallelogram_witness :
  exists (normal : P3) (n : Z),
    Kite3.Intersect Sample.kite Sample.rayTB
    = (true,
       Hit.mk (T3.hitPoint Sample.triangle
                 (T3.u Sample.triangle Sample.rayTB)
                 (T3.v Sample.triangle Sample.rayTB))
              normal
              (Kite3.uvToColor Sample.texture
                 (T3.u Sample.triangle Sample.rayTB)
                 (T3.v Sample.triangle Sample.rayTB)),
       n).
Proof.
  destruct (proj1 (Kite3_covers_parallelogram
                     (P3.mk 1 0 1) (P3.mk 0 1 1) (P3.mk 0 0 1)
                     Sample.texture Sample.rayTB))
    as (normal & n & H & _).
  - eval_T3. repeat split; try lra. solve_Rabs.
  - exists normal, n. exact H.
Defined.

(** ** Scenes made of leaves *)

Lemma leaf_result (ray : R3) (it : Item) :
  leaf it ->
  Item_Intersect it ray = Ok (leafIntersect ray it)
  /\ (1 <= snd (leafIntersect ray it) <= 2)%Z
  /\ (fst (fst (leafIntersect ray it)) = true ->
      Hit.Colour (snd (fst (leafIntersect ray it))) <> color.Nil).
Proof.
  destruct it as [t3 | k3 | children]; cbn [leaf]; intros Hleaf.
  - split; [reflexivity |]. cbn [leafIntersect]. rewrite Intersect_of_UV.
    destruct (T3.hits t3 ray); cbn; (split; [lia |]); intros H;
      discriminate.
  - split; [reflexivity |]. cbn [leafIntersect]. unfold Kite3.Intersect.
    destruct (T3.IntersectUV (Kite3.TA k3) ray) as [[[hitA uA] vA] pA].
    destruct hitA.
    + cbn. split; [lia |]. intros _. unfold Kite3.uvToColor.
      destruct (Kite3.uvToPixel (Kite3.Image k3) uA vA). apply Hleaf.
    + destruct (T3.IntersectUV (Kite3.TB k3) ray) as [[[hitB uB] vB] pB].
      destruct hitB; cbn; (split; [lia |]); intros H; try discriminate.
      unfold Kite3.uvToColor.
      destruct (Kite3.uvToPixel (Kite3.Image k3) (1 - vB) (1 - uB)).
      apply Hleaf.
  - contradiction.
Qed.

Lemma leaves_results (ray : R3) (l : list Item) :
  Forall leaf l ->
  childResults Item_Intersect ray l (map (leafIntersect ray) l)
  /\ (Z.of_nat (List.length l)
      <= sumCounts (map (leafIntersect ray) l)
      <= 2 * Z.of_nat (List.length l))%Z
  /\ Forall (fun h => Hit.Colour h <> color.Nil)
            (hitsOf (map (leafIntersect ray) l)).
Proof.
  induction 1 as [| it l Hit _ (IHres & IHsum & IHhits)].
  - split; [constructor |]. split; [cbn; lia | constructor].
  - destruct (leaf_result ray it Hit) as (Hres & Hcount & Hcol).
    split; [constructor; assumption |].
    cbn [map sumCounts hitsOf fold_right flat_map List.length].
    fold (sumCounts (map (leafIntersect ray) l)).
    fold (hitsOf (map (leafIntersect ray) l)).
    destruct (leafIntersect ray it) as [[b h] n]. cbn [fst snd] in *.
    split; [lia |].
    destruct b; cbn [app]; [constructor; [apply Hcol; reflexivity |] |];
      exact IHhits.
Qed.

(** X10: A composite whose children are leaves (fewer than [2^62]) never
    panics: [Intersect] returns, with a count between the number of children
    and twice that number, and a reported hit has a colour. *)
Theorem leaves_Intersect_count (ci : CompositeItem) (ray : R3)
    (l : list Item) :
  CompositeItem.children ci = Some l ->
  Forall leaf l ->
  (Z.of_nat (List.length l) < 2 ^ 62)%Z ->
  exists (b : bool) (h : Hit) (n : Z),
    CompositeItem_Intersect ci ray = Ok (b, h, n)
    /\ (Z.of_nat (List.length l) <= n <= 2 * Z.of_nat (List.length l))%Z
    /\ (b = true -> Hit.Colour h <> color.Nil).
Proof.
  intros Hl Hleaves Hlen.
  destruct (leaves_results ray l Hleaves) as (Hres & Hsum & Hhits).
  unfold CompositeItem_Intersect, CompositeItem.IntersectWith.
  rewrite Hl, (testChildren_all _ _ _ _ Hres).
  assert (H62 : (2 ^ 62 = 4611686018427387904)%Z) by reflexivity.
  assert (H63 : (2 ^ 63 = 9223372036854775808)%Z) by reflexivity.
  rewrite wrap64_small by lia.
  destruct (hitsOf (map (leafIntersect ray) l)) as [| h0 hs] eqn:Eh.
  - exists false, Hit.zero, (sumCounts (map (leafIntersect ray) l)).
    split; [reflexivity |]. split; [exact Hsum | discriminate].
  - exists true, (CompositeItem.nearest (h0 :: hs) h0),
      (sumCounts (map (leafIntersect ray) l)).
    split; [reflexivity |]. split; [exact Hsum |]. intros _.
    destruct (nearest_minimal (h0 :: hs) h0) as (Hin & _).
    rewrite Forall_forall in Hhits. apply Hhits.
    destruct Hin as [-> | Hin]; [left; reflexivity | exact Hin].
Qed.

Lemma leaves_Intersect_count_witness :
  exists (b : bool) (h : Hit) (n : Z),
    CompositeItem_Intersect
      (CompositeItem.mk (Some [ItemT3 Sample.triangle;
                               ItemT3 Sample.farTriangle]))
      Sample.rayTA
    = Ok (b, h, n)
    /\ (2 <= n <= 4)%Z.
Proof.
  destruct (leaves_Intersect_count
              (CompositeItem.mk (Some [ItemT3 Sample.triangle;
                                       ItemT3 Sample.farTriangle]))
              Sample.rayTA
              [ItemT3 Sample.triangle; ItemT3 Sample.farTriangle])
    as (b & h & n & H & Hn & _).
  - reflexivity.
  - repeat constructor.
  - cbn. lia.
  - exists b, h, n. split; [exact H | exact Hn].
Defined.

(** X11: On a scene whose children are leaves, [Render] never panics: for all
    screen coordinates it returns an opaque [NRGBA] colour and a count. *)
Theorem Render_leaves_total (s : Scene) (x y : R) (l : list Item) :
  CompositeItem.children (Scene.composite s) = Some l ->
  Forall leaf l ->
  exists (R G B n : Z),
    Scene.Render s x y = Ok (color.NRGBA R G B 255, n).
Proof.
  intros Hl Hleaves. set (ray := Scene.primaryRay s x y).
  destruct (leaves_results ray l Hleaves) as (Hres & _ & Hhits).
  unfold Scene.Render. fold ray.
  unfold CompositeItem_Intersect, CompositeItem.IntersectWith.
  rewrite Hl, (testChildren_all _ _ _ _ Hres).
  destruct (hitsOf (map (leafIntersect ray) l)) as [| h0 hs] eqn:Eh.
  - cbn. do 4 eexists. reflexivity.
  - cbn [bind negb].
    destruct (nearest_minimal (h0 :: hs) h0) as (Hin & _).
    assert (Hcol : Hit.Colour (CompositeItem.nearest (h0 :: hs) h0)
                   <> color.Nil).
    { rewrite Forall_forall in Hhits. apply Hhits.
      destruct Hin as [-> | Hin]; [left; reflexivity | exact Hin]. }
    unfold Scene.illumination.
    destruct (Hit.Colour (CompositeItem.nearest (h0 :: hs) h0))
      as [| cr cg cb ca | cr cg cb ca]; [contradiction | |];
      cbn [color.RGBA bind].
    + destruct (color.NRGBA_RGBA cr cg cb ca) as [[[r1 g1] b1] a1].
      cbn [bind]. do 4 eexists. reflexivity.
    + do 4 eexists. reflexivity.
Qed.

Lemma Render_leaves_total_witness :
  exists (R G B n : Z),
    Scene.Render Sample.scene (1 / 2) (1 / 4)
    = Ok (color.NRGBA R G B 255, n).
Proof.
  apply (Render_leaves_total Sample.scene (1 / 2) (1 / 4)
           [ItemT3 Sample.farTriangle]).
  - reflexivity.
  - repeat constructor.
Defined.

(** ** Nested composites *)

Lemma wrap64_idem (z : Z) : wrap64 (wrap64 z) = wrap64 z.
Proof.
  pose proof (wrap64_add_l z 0) as H. rewrite !Z.add_0_r in H. exact H.
Qed.

Lemma wrap64_add_r (a b : Z) : wrap64 (a + wrap64 b) = wrap64 (a + b).
Proof. rewrite Z.add_comm, wrap64_add_l, Z.add_comm. reflexivity. Qed.

Section Nested.

Variable ray : R3.

(** One step of the second loop of [Intersect]. *)
Let closer (nearestHit h : Hit) : Hit :=
  if Rltb (P3.Len (Hit.At h)) (P3.Len (Hit.At nearestHit)) then h
  else nearestHit.

Lemma closer_assoc (a h x : Hit) :
  closer (closer a h) x = closer a (closer h x).
Proof.
  unfold closer.
  destruct (Rltb (P3.Len (Hit.At h)) (P3.Len (Hit.At a))) eqn:E1;
    destruct (Rltb (P3.Len (Hit.At x)) (P3.Len (Hit.At h))) eqn:E2;
    destruct (Rltb (P3.Len (Hit.At x)) (P3.Len (Hit.At a))) eqn:E3;
    cbn iota; rewrite ?E1, ?E2, ?E3; try reflexivity;
    rewrite ?Rltb_true_iff, ?Rltb_false_iff in *; lra.
Qed.

Lemma closer_idem (a : Hit) : closer a a = a.
Proof. unfold closer. case_Rltb; reflexivity. Qed.

Lemma fold_closer (l : list Hit) :
  forall acc h0 : Hit,
    fold_left closer l (closer acc h0) = closer acc (fold_left closer l h0).
Proof.
  induction l as [| x l IH]; intros acc h0; [reflexivity |].
  cbn [fold_left]. rewrite closer_assoc. apply IH.
Qed.

(** What [Intersect] makes of the hits it collected. *)
Let select (hits : list Hit) : bool * Hit :=
  match hits with
  | [] => (false, Hit.zero)
  | h0 :: _ => (true, CompositeItem.nearest hits h0)
  end.

Lemma nearest_fold (hits : list Hit) (first : Hit) :
  CompositeItem.nearest hits first = fold_left closer hits first.
Proof. reflexivity. Qed.

Lemma fold_closer_cons (x : Hit) (l : list Hit) (acc : Hit) :
  fold_left closer (x :: l) acc = fold_left closer l (closer acc x).
Proof. reflexivity. Qed.

Lemma select_nested (hp h2 tl : list Hit) (h0 : Hit) :
  select (hp ++ CompositeItem.nearest (h0 :: tl) h0 :: h2)
  = select (hp ++ (h0 :: tl) ++ h2).
Proof.
  rewrite (nearest_fold (h0 :: tl)), fold_closer_cons, closer_idem.
  unfold select.
  destruct hp as [| p0 ptl]; cbn [app]; rewrite !nearest_fold;
    apply (f_equal (pair true));
    rewrite !fold_closer_cons, !closer_idem, !fold_left_app.
  - reflexivity.
  - rewrite !fold_closer_cons, fold_left_app, (fold_closer tl).
    reflexivity.
Qed.

Lemma testChildren_app (l l' : list Item) :
  forall (t : Z) (hs : list Hit),
    CompositeItem.testChildren Item_Intersect ray (l ++ l') t hs
    = match CompositeItem.testChildren Item_Intersect ray l t hs with
      | Ok (t', hs') =>
          CompositeItem.testChildren Item_Intersect ray l' t' hs'
      | Panic msg => Panic msg
      | OutOfFuel => OutOfFuel
      end.
Proof.
  induction l as [| c l IH]; intros t hs; [reflexivity |].
  cbn [app CompositeItem.testChildren].
  destruct (Item_Intersect c ray) as [[[b h] n] | msg |]; try reflexivity.
  apply IH.
Qed.

Lemma testChildren_from (l : list Item) :
  forall (t : Z) (hs : list Hit),
    CompositeItem.testChildren Item_Intersect ray l (wrap64 t) hs
    = match CompositeItem.testChildren Item_Intersect ray l 0%Z [] with
      | Ok (t1, h1) => Ok (wrap64 (t + t1), hs ++ h1)
      | Panic msg => Panic msg
      | OutOfFuel => OutOfFuel
      end.
Proof.
  induction l as [| c l IH]; intros t hs.
  - cbn. rewrite Z.add_0_r, app_nil_r. reflexivity.
  - cbn [CompositeItem.testChildren].
    destruct (Item_Intersect c ray) as [[[b h] n] | msg |]; try reflexivity.
    rewrite wrap64_add_l, IH. cbn [Z.add]. rewrite (IH n).
    destruct (CompositeItem.testChildren Item_Intersect ray l 0%Z [])
      as [[t1 h1] | msg |]; try reflexivity.
    rewrite wrap64_add_r, Z.add_assoc.
    destruct b; cbn [app]; rewrite <- ?app_assoc; reflexivity.
Qed.

Lemma testChildren_total (l : list Item) (t : Z) (hs : list Hit) :
  CompositeItem.testChildren Item_Intersect ray l 0%Z [] = Ok (t, hs) ->
  wrap64 t = t.
Proof.
  change 0%Z with (wrap64 0) at 1. rewrite testChildren_from.
  destruct (CompositeItem.testChildren Item_Intersect ray l 0%Z [])
    as [[t1 h1] | msg |]; try discriminate.
  intros H. inversion H. apply wrap64_idem.
Qed.

Lemma IntersectWith_select (l : list Item) :
  CompositeItem.IntersectWith Item_Intersect (Some l) ray
  = match CompositeItem.testChildren Item_Intersect ray l 0%Z [] with
    | Ok (t, hits) => Ok (select hits, t)
    | Panic msg => Panic msg
    | OutOfFuel => OutOfFuel
    end.
Proof.
  unfold CompositeItem.IntersectWith, select.
  destruct (CompositeItem.testChildren Item_Intersect ray l 0%Z [])
    as [[t hits] | msg |]; try reflexivity.
  destruct hits; reflexivity.
Qed.

Lemma nested_flat (pre l1 rest : list Item) :
  CompositeItem.IntersectWith Item_Intersect
    (Some (pre ++ ItemComposite (Some l1) :: rest)) ray
  = CompositeItem.IntersectWith Item_Intersect
      (Some (pre ++ l1 ++ rest)) ray.
Proof.
  rewrite !IntersectWith_select, !testChildren_app.
  destruct (CompositeItem.testChildren Item_Intersect ray pre 0%Z [])
    as [[tp hp] | msg |] eqn:Epre; try reflexivity.
  apply testChildren_total in Epre. rewrite <- Epre.
  rewrite testChildren_app, (testChildren_from l1).
  cbn [CompositeItem.testChildren Item_Intersect].
  rewrite IntersectWith_select.
  destruct (CompositeItem.testChildren Item_Intersect ray l1 0%Z [])
    as [[t1 h1] | msg |] eqn:E1; try reflexivity.
  apply testChildren_total in E1.
  destruct h1 as [| h0 tl]; unfold select at 1; cbn iota beta;
    rewrite wrap64_add_l, !(testChildren_from rest);
    destruct (CompositeItem.testChildren Item_Intersect ray rest 0%Z [])
      as [[t2 h2] | msg |]; try reflexivity.
  - rewrite app_nil_r. reflexivity.
  - rewrite <- !app_assoc. cbn [app].
    rewrite (select_nested hp h2 tl h0). reflexivity.
Qed.

End Nested.

(** X12: A composite among the children of a composite can be replaced by its
    own children, in place: for every ray the outer [Intersect] returns the
    same hit and the same count, or panics with the same message. *)
Theorem nested_composite_flattens (pre l1 rest : list Item) (ray : R3) :
  CompositeItem_Intersect
    (CompositeItem.mk (Some (pre ++ ItemComposite (Some l1) :: rest))) ray
  = CompositeItem_Intersect
      (CompositeItem.mk (Some (pre ++ l1 ++ rest))) ray.
Proof. apply nested_flat. Qed.

(** ** Circles *)

(** X13: The cross product of the axis with the starting vector that [Points]
    settles on is the zero vector exactly for the axes along x with [X >=
    1e-6] and for the axes along y (the zero axis included); for every other
    axis it is not. *)
Theorem helper_degenerate_iff (c : Circle) :
  P3.Cross (Circle.axis c) (Circle.helper c) = Origin
  <-> (Epsilon <= P3.X (Circle.axis c)
       /\ P3.Y (Circle.axis c) = 0 /\ P3.Z (Circle.axis c) = 0)
      \/ (P3.X (Circle.axis c) = 0 /\ P3.Z (Circle.axis c) = 0).
Proof.
  pose proof Epsilon_pos as He.
  destruct c as [centre [x y z] radius]. unfold Circle.helper, P3.Dot.
  cbn [Circle.axis P3.X P3.Y P3.Z].
  replace (1 * x + 0 * y + 0 * z) with x by ring.
  destruct (Rltb x Epsilon) eqn:E;
    [apply Rltb_true_iff in E | apply Rltb_false_iff in E];
    unfold P3.Cross, Origin; cbn [P3.X P3.Y P3.Z]; split.
  - intros H. right.
    pose proof (f_equal P3.X H) as HX. pose proof (f_equal P3.Z H) as HZ.
    cbn in HX, HZ. lra.
  - intros [(H1 & _) | (HX & HZ)]; [lra |]. subst. apply P3_eq; cbn; ring.
  - intros H. left.
    pose proof (f_equal P3.Y H) as HY. pose proof (f_equal P3.Z H) as HZ.
    cbn in HY, HZ. lra.
  - intros [(_ & HY & HZ) | (HX & _)]; [| lra]. subst.
    apply P3_eq; cbn; ring.
Qed.

Section CircleFormula.

Variable c : Circle.
Variable n : nat.
Hypothesis n_pos : (0 < n)%nat.

Let step : R := PI * 2 / INR n.

Lemma pointsFrom_points (m : nat) :
  forall (k fuel : nat) (points : list P3),
    (k + m = n)%nat -> (m <= fuel)%nat ->
    Circle.pointsFrom fuel c step (INR k * step) points
    = Ok (points
          ++ map (fun i => Circle.pointAt c (INR i * step)) (seq k m)).
Proof.
  induction m as [| m IH]; intros k fuel points Hk Hfuel.
  - replace k with n by lia. cbn [seq map].
    pose proof (angle_full n n_pos) as Hfull. fold step in Hfull.
    rewrite Hfull, app_nil_r.
    destruct fuel; cbn [Circle.pointsFrom];
      rewrite (proj2 (Rltb_false_iff (PI * 2) (PI * 2))) by lra;
      reflexivity.
  - destruct fuel as [| fuel]; [lia |].
    cbn [Circle.pointsFrom].
    pose proof (angle_below n n_pos k ltac:(lia)) as Hbelow.
    fold step in Hbelow.
    rewrite (proj2 (Rltb_true_iff _ _) Hbelow).
    replace (INR k * step + step) with (INR (S k) * step)
      by (rewrite S_INR; ring).
    rewrite IH by lia. rewrite <- app_assoc. reflexivity.
Qed.

End CircleFormula.

(** X14: For the numbers of steps that the package passes to [Points], 32
    for the major circle of a torus and 8 for its minor circles (and fuel for
    that many iterations), [Points] ends and returns exactly that many
    points: for [k = 0 .. n-1], in this order, the point
    [centre + rx cos(k 2 pi / n) + ry sin(k 2 pi / n)]. *)
Theorem Points_formula (c : Circle) (n fuel : nat) :
  n = 32%nat \/ n = 8%nat -> (n <= fuel)%nat ->
  Circle.Points fuel c (Z.of_nat n)
  = Ok (map (fun k => Circle.pointAt c (INR k * (PI * 2 / INR n)))
            (seq 0 n))
  /\ List.length
       (map (fun k => Circle.pointAt c (INR k * (PI * 2 / INR n))) (seq 0 n))
     = n.
Proof.
  intros Hn Hfuel. assert (Hpos : (0 < n)%nat) by lia. split.
  - unfold Circle.Points. rewrite <- INR_IZR_INZ.
    replace 0 with (INR 0 * (PI * 2 / INR n)) at 1 by (cbn; ring).
    rewrite (pointsFrom_points c n Hpos n 0%nat fuel []) by lia.
    reflexivity.
  - rewrite length_map, length_seq. reflexivity.
Qed.

Lemma Points_formula_witness :
  exists points : list P3,
    Circle.Points 8 circleZ 8%Z = Ok points
    /\ List.length points = 8%nat.
Proof.
  destruct (Points_formula circleZ 8 8) as (H & Hlen);
    [right; reflexivity | lia |].
  eexists. split; [exact H | exact Hlen].
Defined.

Lemma Dot_Cross_l (p q : P3) : P3.Dot p (P3.Cross p q) = 0.
Proof. unfold P3.Dot, P3.Cross. cbn. ring. Qed.

Lemma Dot_Cross_r (p q : P3) : P3.Dot q (P3.Cross p q) = 0.
Proof. unfold P3.Dot, P3.Cross. cbn. ring. Qed.

Lemma Dot_Normalise (p q : P3) :
  P3.Dot p (P3.Normalise q) = P3.Dot p q / P3.Len q.
Proof. unfold P3.Dot, P3.Normalise. cbn. unfold Rdiv. ring. Qed.

Lemma Dot_Scale_r (p q : P3) (s : R) :
  P3.Dot p (P3.Scale q s) = s * P3.Dot p q.
Proof. unfold P3.Dot, P3.Scale. cbn. ring. Qed.

Lemma Dot_Scale_Scale (p : P3) (s : R) :
  P3.Dot (P3.Scale p s) (P3.Scale p s) = s * s * P3.Dot p p.
Proof. unfold P3.Dot, P3.Scale. cbn. ring. Qed.

Lemma Normalise_Dot (p : P3) :
  p <> Origin -> P3.Dot (P3.Normalise p) (P3.Normalise p) = 1.
Proof.
  intros Hp.
  assert (Hl : P3.Len p <> 0) by (rewrite Len_zero_iff; exact Hp).
  pose proof (Len_sqr p) as Hs. unfold P3.Dot in *.
  unfold P3.Normalise. cbn [P3.X P3.Y P3.Z]. set (l := P3.Len p) in *.
  replace (P3.X p / l * (P3.X p / l) + P3.Y p / l * (P3.Y p / l)
           + P3.Z p / l * (P3.Z p / l))
    with ((P3.X p * P3.X p + P3.Y p * P3.Y p + P3.Z p * P3.Z p) / (l * l))
    by (field; exact Hl).
  rewrite <- Hs. field. exact Hl.
Qed.

Lemma Dot_zero_Origin (p : P3) : P3.Dot p p = 0 -> p = Origin.
Proof.
  intros H. apply Len_zero_iff. pose proof (Len_sqr p) as Hs.
  rewrite H in Hs. pose proof (Len_nonneg p). nra.
Qed.

Section OnCircle.

Variable c : Circle.
Hypothesis helper_ok : P3.Cross (Circle.axis c) (Circle.helper c) <> Origin.
Hypothesis radius_ok : Circle.radius c <> 0.

Lemma rx_facts :
  P3.Dot (Circle.rx c) (Circle.rx c) = Circle.radius c * Circle.radius c
  /\ P3.Dot (Circle.axis c) (Circle.rx c) = 0.
Proof.
  unfold Circle.rx. split.
  - rewrite Dot_Scale_Scale, (Normalise_Dot _ helper_ok). ring.
  - rewrite Dot_Scale_r, Dot_Normalise, Dot_Cross_l. unfold Rdiv. ring.
Qed.

Lemma axis_rx_cross : P3.Cross (Circle.axis c) (Circle.rx c) <> Origin.
Proof.
  intros H. destruct rx_facts as (Hrr & Har).
  pose proof (Lagrange (Circle.axis c) (Circle.rx c)) as HL.
  rewrite H, Har, Hrr in HL.
  assert (Haxis : P3.Dot (Circle.axis c) (Circle.axis c) = 0).
  { unfold P3.Dot at 1 in HL. unfold Origin in HL. cbn in HL.
    assert (Hz : P3.Dot (Circle.axis c) (Circle.axis c)
                 * (Circle.radius c * Circle.radius c) = 0) by lra.
    apply Rmult_integral in Hz. destruct Hz as [Hz | Hz]; [exact Hz |].
    apply Rmult_integral in Hz. exfalso. tauto. }
  apply Dot_zero_Origin in Haxis. apply helper_ok. rewrite Haxis.
  apply P3_eq; unfold P3.Cross, Origin; cbn; ring.
Qed.

Lemma ry_facts :
  P3.Dot (Circle.ry c) (Circle.ry c) = Circle.radius c * Circle.radius c
  /\ P3.Dot (Circle.axis c) (Circle.ry c) = 0
  /\ P3.Dot (Circle.rx c) (Circle.ry c) = 0.
Proof.
  unfold Circle.ry. repeat split.
  - rewrite Dot_Scale_Scale, (Normalise_Dot _ axis_rx_cross). ring.
  - rewrite Dot_Scale_r, Dot_Normalise, Dot_Cross_l. unfold Rdiv. ring.
  - rewrite Dot_Scale_r, Dot_Normalise, Dot_Cross_r. unfold Rdiv. ring.
Qed.

Lemma pointAt_on_circle (theta : R) :
  P3.Len (P3.Sub (Circle.pointAt c theta) (Circle.centre c))
  = Rabs (Circle.radius c)
  /\ P3.Dot (Circle.axis c)
            (P3.Sub (Circle.pointAt c theta) (Circle.centre c)) = 0.
Proof.
  destruct rx_facts as (Hxx & Hax). destruct ry_facts as (Hyy & Hay & Hxy).
  set (rx := Circle.rx c) in *. set (ry := Circle.ry c) in *.
  set (r := P3.Add (P3.Scale rx (cos theta)) (P3.Scale ry (sin theta))).
  assert (Hsub : P3.Sub (Circle.pointAt c theta) (Circle.centre c) = r).
  { unfold Circle.pointAt. fold rx ry r.
    apply P3_eq; unfold P3.Sub, P3.Add; cbn; ring. }
  rewrite Hsub.
  assert (Hrr : P3.Dot r r = Circle.radius c * Circle.radius c).
  { replace (P3.Dot r r)
      with (cos theta * cos theta * P3.Dot rx rx
            + 2 * (cos theta * sin theta) * P3.Dot rx ry
            + sin theta * sin theta * P3.Dot ry ry)
      by (subst r; unfold P3.Dot, P3.Add, P3.Scale; cbn; ring).
    rewrite Hxx, Hxy, Hyy. pose proof (sin2_cos2 theta) as Hsc.
    unfold Rsqr in Hsc. nra. }
  split.
  - rewrite <- sqrt_Rsqr_abs. unfold Rsqr. rewrite <- Hrr.
    unfold P3.Len, P3.Dot. reflexivity.
  - replace (P3.Dot (Circle.axis c) r)
      with (cos theta * P3.Dot (Circle.axis c) rx
            + sin theta * P3.Dot (Circle.axis c) ry)
      by (subst r; unfold P3.Dot, P3.Add, P3.Scale; cbn; ring).
    rewrite Hax, Hay. ring.
Qed.

End OnCircle.

(** X15: When the starting vector is not parallel to the axis and the radius
    is not zero, every point that [Points] returns lies on the circle: at the
    distance [|radius|] from the centre, in the plane through the centre that
    is orthogonal to the axis. *)
Theorem Points_on_circle (c : Circle) (n fuel : nat) :
  (0 < n)%nat -> (n <= fuel)%nat ->
  P3.Cross (Circle.axis c) (Circle.helper c) <> Origin ->
  Circle.radius c <> 0 ->
  exists points : list P3,
    Circle.Points fuel c (Z.of_nat n) = Ok points
    /\ Forall (fun p =>
                 P3.Len (P3.Sub p (Circle.centre c)) = Rabs (Circle.radius c)
                 /\ P3.Dot (Circle.axis c) (P3.Sub p (Circle.centre c)) = 0)
              points.
Proof.
  intros Hn Hfuel Hhelper Hradius.
  exists (map (fun k => Circle.pointAt c (INR k * (PI * 2 / INR n)))
              (seq 0 n)).
  split.
  - unfold Circle.Points. rewrite <- INR_IZR_INZ.
    replace 0 with (INR 0 * (PI * 2 / INR n)) at 1 by (cbn; ring).
    rewrite (pointsFrom_points c n Hn n 0%nat fuel []) by lia.
    reflexivity.
  - apply Forall_forall. intros p Hp. apply in_map_iff in Hp.
    destruct Hp as (k & <- & _).
    apply pointAt_on_circle; assumption.
Qed.

Lemma Points_on_circle_witness :
  exists points : list P3,
    Circle.Points 8 circleZ 8%Z = Ok points
    /\ Forall (fun p =>
                 P3.Len (P3.Sub p (P3.mk 1 2 3)) = Rabs 2
                 /\ P3.Dot (P3.mk 0 0 1) (P3.Sub p (P3.mk 1 2 3)) = 0)
              points.
Proof.
  apply (Points_on_circle circleZ 8 8); try lia.
  - unfold circleZ, Circle.helper, P3.Dot, Epsilon. cbn.
    case_Rltb; [| lra]. intros HO. apply (f_equal P3.X) in HO.
    unfold P3.Cross, Origin in HO. cbn in HO. lra.
  - cbn. lra.
Defined.

(** ** Torus and parallelepiped *)

Lemma rowKites_leaves (grid : list (list P3)) (numRows numCols : nat)
    (img : image.Image) (ixs : list nat) :
  neverNil img ->
  Forall leaf (flat_map (rowKites grid numRows numCols img) ixs).
Proof.
  intros Himg. apply Forall_forall. intros it Hin.
  apply in_flat_map in Hin. destruct Hin as (i & _ & Hin).
  unfold rowKites in Hin. apply in_map_iff in Hin.
  destruct Hin as (j & <- & _). exact Himg.
Qed.

(** X16: With fuel for the 32 steps of the major circle, [NewTorus] returns a
    torus of 256 kites. When the texture has a colour at every pixel, its
    [Intersect] never panics, and tests between 256 and 512 triangles for
    every ray. *)
Theorem NewTorus_kites (fuel : nat) (centre axis : P3)
    (radius thickness : R) (img : image.Image) :
  (32 <= fuel)%nat ->
  neverNil img ->
  exists (t : Torus) (items : list Item),
    NewTorus fuel centre axis radius thickness img = Ok t
    /\ CompositeItem.children (Torus.composite t) = Some items
    /\ List.length items = 256%nat
    /\ forall ray : R3,
         exists (b : bool) (h : Hit) (n : Z),
           CompositeItem_Intersect (Torus.composite t) ray = Ok (b, h, n)
           /\ (256 <= n <= 512)%Z.
Proof.
  intros Hfuel Himg.
  destruct (NewTorus_children fuel Hfuel centre axis radius thickness img)
    as (t & grid & items & Ht & Hchildren & Hrows & Hcols & Hkites).
  rewrite (gridToKites_ok img grid 32 8 Hrows Hcols ltac:(lia) ltac:(lia))
    in Hkites.
  assert (Hitems : flat_map (rowKites grid 32 8 img) (seq 0 32) = items)
    by congruence.
  clear Hkites.
  assert (Hlen : List.length items = 256%nat).
  { rewrite <- Hitems.
    exact (allKites_length img grid 32 8 Hrows ltac:(lia) 32 0). }
  assert (Hleaves : Forall leaf items)
    by (rewrite <- Hitems; apply rowKites_leaves; exact Himg).
  exists t, items. split; [exact Ht |]. split; [exact Hchildren |].
  split; [exact Hlen |]. intros ray.
  destruct (leaves_results ray items Hleaves) as (Hres & Hsum & _).
  rewrite Hlen in Hsum.
  unfold CompositeItem_Intersect, CompositeItem.IntersectWith.
  rewrite Hchildren, (testChildren_all _ _ _ _ Hres).
  assert (H63 : (2 ^ 63 = 9223372036854775808)%Z) by reflexivity.
  rewrite wrap64_small by lia.
  destruct (hitsOf (map (leafIntersect ray) items)) as [| h0 hs].
  - exists false, Hit.zero, (sumCounts (map (leafIntersect ray) items)).
    split; [reflexivity | lia].
  - exists true, (CompositeItem.nearest (h0 :: hs) h0),
      (sumCounts (map (leafIntersect ray) items)).
    split; [reflexivity | lia].
Qed.

Lemma texture_neverNil : neverNil Sample.texture.
Proof. intros x y. cbn. discriminate. Qed.

Lemma NewTorus_kites_witness :
  exists (t : Torus) (items : list Item),
    NewTorus 32 (P3.mk 0 0 100) (P3.mk 1 1 1) 30 5 Sample.texture = Ok t
    /\ CompositeItem.children (Torus.composite t) = Some items
    /\ List.length items = 256%nat.
Proof.
  destruct (NewTorus_kites 32 (P3.mk 0 0 100) (P3.mk 1 1 1) 30 5
              Sample.texture ltac:(lia) texture_neverNil)
    as (t & items & Ht & Hc & Hlen & _).
  exists t, items. split; [exact Ht |]. split; [exact Hc | exact Hlen].
Defined.

(** X17: [Build] gives the parallelepiped six kites, one on every face: with
    the vertices written [Corner + i E1 + j E2 + k E3], the outlines of the
    kites are the faces [k = 0], [i = 0], [j = 0], [k = 1], [i = 1] and [j =
    1], in this order. *)
Theorem PPiped_faces (ppp : PPiped) :
  exists k1 k2 k3 k4 k5 k6 : Kite3,
    CompositeItem.children (PPiped.composite (PPiped.Build ppp))
    = Some [ItemKite3 k1; ItemKite3 k2; ItemKite3 k3;
            ItemKite3 k4; ItemKite3 k5; ItemKite3 k6]
    /\ corners k1 = [PPiped.vertex ppp 0 0 0; PPiped.vertex ppp 1 0 0;
                     PPiped.vertex ppp 1 1 0; PPiped.vertex ppp 0 1 0]
    /\ corners k2 = [PPiped.vertex ppp 0 0 0; PPiped.vertex ppp 0 1 0;
                     PPiped.vertex ppp 0 1 1; PPiped.vertex ppp 0 0 1]
    /\ corners k3 = [PPiped.vertex ppp 0 0 0; PPiped.vertex ppp 0 0 1;
                     PPiped.vertex ppp 1 0 1; PPiped.vertex ppp 1 0 0]
    /\ corners k4 = [PPiped.vertex ppp 1 1 1; PPiped.vertex ppp 0 1 1;
                     PPiped.vertex ppp 0 0 1; PPiped.vertex ppp 1 0 1]
    /\ corners k5 = [PPiped.vertex ppp 1 1 1; PPiped.vertex ppp 1 0 1;
                     PPiped.vertex ppp 1 0 0; PPiped.vertex ppp 1 1 0]
    /\ corners k6 = [PPiped.vertex ppp 1 1 1; PPiped.vertex ppp 1 1 0;
                     PPiped.vertex ppp 0 1 0; PPiped.vertex ppp 0 1 1].
Proof.
  unfold PPiped.Build. cbn [PPiped.composite CompositeItem.children].
  do 6 eexists. split; [reflexivity |].
  unfold corners, NewKite3, PPiped.vertex.
  cbn [Kite3.TA Kite3.TB T3.A T3.B T3.C].
  repeat split;
    repeat (apply (f_equal2 (@cons P3));
            [apply P3_eq; unfold P3.Add, P3.Sub, P3.Scale;
             cbn [P3.X P3.Y P3.Z]; ring |]);
    reflexivity.
Qed.

(** ** Grids at the edges *)

Lemma kitesOfRows_zero_cols (img : image.Image) (grid : list (list P3))
    (ixs : list nat) :
  Forall (fun i => (i < List.length grid)%nat) ixs ->
  Exists (fun i => nth i grid [] <> []) ixs ->
  forall items : option (list Item),
    kitesOfRows grid (List.length grid) 0 img ixs items
    = Panic "integer divide by zero".
Proof.
  induction ixs as [| i ixs IH]; intros Hall Hex items.
  - inversion Hex.
  - pose proof (Forall_inv Hall) as Hi. cbn beta in Hi.
    assert (Hm : ((i + 1) mod List.length grid < List.length grid)%nat)
      by (apply Nat.mod_upper_bound; lia).
    cbn [kitesOfRows].
    rewrite (index_lt grid i []) by lia. cbn [bind].
    rewrite imod_pos by lia. cbn [bind].
    rewrite (index_lt grid _ []) by lia. cbn [bind].
    destruct (nth i grid []) as [| p row] eqn:Erow.
    + cbn [List.length seq kitesOfRow bind]. apply IH.
      * exact (Forall_inv_tail Hall).
      * inversion Hex as [? ? Hne | ? ? Htl]; subst;
          [rewrite Erow in Hne; contradiction | exact Htl].
    + reflexivity.
Qed.

(** X18: [gridToKites] at the edges: on the grid with no row it panics on
    [grid[0]]; on a grid whose rows are all empty it returns the nil slice;
    and on a grid whose first row is empty and which has a row with a point it
    panics on the division by the number of columns, which is 0. *)
Theorem gridToKites_edges (img : image.Image) :
  gridToKites [] img = Panic "index out of range"
  /\ (forall grid : list (list P3),
        grid <> [] -> Forall (fun row => row = []) grid ->
        gridToKites grid img = Ok None)
  /\ (forall (rest : list (list P3)),
        Exists (fun row => row <> []) rest ->
        gridToKites ([] :: rest) img = Panic "integer divide by zero").
Proof.
  split; [reflexivity |]. split.
  - intros grid Hne Hrows. unfold gridToKites.
    destruct grid as [| row0 grid']; [contradiction |].
    cbn [index nth_error bind].
    assert (H : forall (ixs : list nat) (numCols : nat),
               Forall (fun i => (i < List.length (row0 :: grid'))%nat) ixs ->
               kitesOfRows (row0 :: grid') (List.length (row0 :: grid'))
                           numCols img ixs None
               = Ok None).
    { induction ixs as [| i ixs IH]; intros numCols Hall; [reflexivity |].
      pose proof (Forall_inv Hall) as Hi. cbn beta in Hi.
      assert (Hm : ((i + 1) mod List.length (row0 :: grid')
                    < List.length (row0 :: grid'))%nat)
        by (apply Nat.mod_upper_bound; cbn; lia).
      cbn [kitesOfRows].
      rewrite (index_lt (row0 :: grid') i []) by lia. cbn [bind].
      rewrite imod_pos by (cbn; lia). cbn [bind].
      rewrite (index_lt (row0 :: grid') _ []) by lia. cbn [bind].
      assert (Erow : nth i (row0 :: grid') [] = []).
      { rewrite Forall_forall in Hrows. apply Hrows. apply nth_In. lia. }
      rewrite Erow. cbn [List.length seq kitesOfRow bind].
      apply IH. exact (Forall_inv_tail Hall). }
    apply H. apply Forall_seq_lt.
  - intros rest Hex. unfold gridToKites. cbn [index nth_error bind].
    change (@List.length P3 []) with 0%nat.
    apply kitesOfRows_zero_cols; [apply Forall_seq_lt |].
    apply Exists_exists in Hex. destruct Hex as (row & Hin & Hne).
    apply (In_nth _ _ []) in Hin. destruct Hin as (k & Hk & Hnth).
    apply Exists_exists. exists (S k). split.
    + apply in_seq. cbn. lia.
    + cbn [nth]. rewrite Hnth. exact Hne.
Qed.

Lemma gridToKites_edges_witness :
  gridToKites [[]; []] Sample.texture = Ok None
  /\ gridToKites [[]; [Origin]] Sample.texture
     = Panic "integer divide by zero".
Proof.
  destruct (gridToKites_edges Sample.texture) as (_ & Hempty & Hzero).
  split.
  - apply Hempty; [discriminate | repeat constructor].
  - apply Hzero. constructor. discriminate.
Defined.

(** ** The range of the incidence *)

Lemma incidence_term_range (vlight normal : P3) :
  vlight <> Origin -> normal <> Origin ->
  0 <= Rabs (P3.Dot vlight normal / P3.Len vlight / P3.Len normal) <= 1.
Proof.
  intros Hv Hn. split; [apply Rabs_pos |].
  assert (Hlv : 0 < P3.Len vlight).
  { pose proof (Len_nonneg vlight).
    assert (P3.Len vlight <> 0) by (rewrite Len_zero_iff; exact Hv). lra. }
  assert (Hln : 0 < P3.Len normal).
  { pose proof (Len_nonneg normal).
    assert (P3.Len normal <> 0) by (rewrite Len_zero_iff; exact Hn). lra. }
  unfold Rdiv. rewrite !Rabs_mult, !Rabs_inv.
  rewrite (Rabs_pos_eq (P3.Len vlight)), (Rabs_pos_eq (P3.Len normal))
    by lra.
  pose proof (Cauchy_Schwarz vlight normal) as HCS.
  assert (Hprod : 0 < P3.Len vlight * P3.Len normal) by nra.
  apply Rmult_le_reg_r with (P3.Len vlight * P3.Len normal); [exact Hprod |].
  replace (Rabs (P3.Dot vlight normal) * / P3.Len vlight * / P3.Len normal
           * (P3.Len vlight * P3.Len normal))
    with (Rabs (P3.Dot vlight normal)) by (field; lra).
  lra.
Qed.

Lemma sumIncidence_range (lights : list Light) (hit : Hit) :
  Hit.Normal hit <> Origin ->
  Forall (fun light => Light.At light <> Hit.At hit) lights ->
  0 <= Scene.sumIncidence lights hit <= INR (List.length lights).
Proof.
  intros Hn Hall. unfold Scene.sumIncidence.
  assert (H : forall acc : R,
             acc
             <= fold_left
                  (fun incidence light =>
                     incidence
                     + Rabs (P3.Dot (P3.Sub (Hit.At hit) (Light.At light))
                                    (Hit.Normal hit)
                             / P3.Len (P3.Sub (Hit.At hit) (Light.At light))
                             / P3.Len (Hit.Normal hit)))
                  lights acc
             <= acc + INR (List.length lights)).
  { induction Hall as [| light lights Hlight _ IH]; intros acc.
    - cbn. lra.
    - cbn [fold_left List.length]. rewrite S_INR.
      assert (Hv : P3.Sub (Hit.At hit) (Light.At light) <> Origin).
      { intros E. apply Hlight.
        pose proof (f_equal P3.X E) as EX. pose proof (f_equal P3.Y E) as EY.
        pose proof (f_equal P3.Z E) as EZ.
        unfold P3.Sub, Origin in EX, EY, EZ. cbn in EX, EY, EZ.
        apply P3_eq; lra. }
      pose proof (incidence_term_range _ _ Hv Hn) as Ht.
      match goal with
      | |- _ <= fold_left _ _ ?a <= _ => specialize (IH a)
      end.
      lra. }
  specialize (H 0). lra.
Qed.

(** X19: With at least one light, a normal other than the zero vector and no
    light at the hit point, the incidence that [illumination] computes is in
    [[0, 1]]. A channel [v] of 16 bits with [v * incidence < 0xffff] is then
    scaled without overflow of the byte, to [floor(v * incidence * 256 /
    0xffff)], which is at most [v * 256 / 0xffff]: the output is never
    brighter than the base colour. *)
Theorem illumination_range (s : Scene) (hit : Hit) :
  Scene.lights s <> [] ->
  Hit.Normal hit <> Origin ->
  Forall (fun light => Light.At light <> Hit.At hit) (Scene.lights s) ->
  let i := Scene.sumIncidence (Scene.lights s) hit
           / INR (List.length (Scene.lights s)) in
  0 <= i <= 1
  /\ forall v : Z,
       (0 <= v <= 65535)%Z -> IZR v * i < 65535 ->
       Scene.toUint i v = Int_part (IZR v * i / 65535 * 256)
       /\ (0 <= Scene.toUint i v <= 255)%Z
       /\ IZR (Scene.toUint i v) <= IZR v * 256 / 65535.
Proof.
  intros Hlights Hn Hall i.
  pose proof (sumIncidence_range _ _ Hn Hall) as Hsum.
  assert (Hlen : 0 < INR (List.length (Scene.lights s))).
  { apply lt_0_INR. destruct (Scene.lights s); [contradiction | cbn; lia]. }
  assert (Hi : 0 <= i <= 1).
  { subst i. split.
    - apply Rmult_le_reg_r with (INR (List.length (Scene.lights s)));
        [exact Hlen |].
      unfold Rdiv. rewrite Rmult_assoc, Rinv_l by lra. lra.
    - apply Rmult_le_reg_r with (INR (List.length (Scene.lights s)));
        [exact Hlen |].
      unfold Rdiv. rewrite Rmult_assoc, Rinv_l by lra. lra. }
  split; [exact Hi |]. intros v Hv Hprod.
  assert (Hv0 : 0 <= IZR v) by (apply IZR_le; lia).
  assert (Hx0 : 0 <= IZR v * i / 65535 * 256) by nra.
  assert (Hx1 : IZR v * i / 65535 * 256 < 256) by lra.
  assert (Hfloor : (0 <= Int_part (IZR v * i / 65535 * 256) <= 255)%Z).
  { destruct (base_Int_part (IZR v * i / 65535 * 256)) as [Hle Hgt]. split.
    - apply Z.lt_succ_r. apply lt_IZR. rewrite succ_IZR. lra.
    - apply Z.lt_succ_r. apply lt_IZR. rewrite succ_IZR. cbn. lra. }
  assert (E : Scene.toUint i v = Int_part (IZR v * i / 65535 * 256)).
  { unfold Scene.toUint, uint8_of_float. rewrite Rtrunc_nonneg by exact Hx0.
    apply Z.mod_small. lia. }
  rewrite E. split; [reflexivity |]. split; [exact Hfloor |].
  destruct (base_Int_part (IZR v * i / 65535 * 256)) as [Hle _]. nra.
Qed.

Lemma illumination_range_witness :
  0 <= Scene.sumIncidence (Scene.lights Sample.scene) Sample.hit
       / INR (List.length (Scene.lights Sample.scene)) <= 1.
Proof.
  apply (illumination_range Sample.scene Sample.hit).
  - discriminate.
  - intros E. apply (f_equal P3.Z) in E. cbn in E. lra.
  - repeat constructor. intros E. apply (f_equal P3.Z) in E. cbn in E. lra.
Defined.

(** ** Building a scene *)

Lemma AddItem_fold (items : list Item) :
  forall ci : CompositeItem,
    CompositeItem.children (fold_left CompositeItem.AddItem items ci)
    = appendAll (CompositeItem.children ci) items.
Proof.
  induction items as [| i items IH]; intros ci; [reflexivity |].
  cbn [fold_left]. rewrite IH.
  unfold CompositeItem.AddItem.
  destruct (CompositeItem.children ci) as [l |];
    cbn [CompositeItem.children];
    destruct items; cbn [appendAll app]; rewrite <- ?app_assoc; reflexivity.
Qed.

(** X20: Adding items and then lights to a scene, one call of [AddItem] or
    [AddLight] each: the distances are kept, the lights are those before
    followed by the new ones in the order of the calls, and so are the
    children; the children stay nil only when no item is added to a scene that
    had none. *)
Theorem Scene_build (s : Scene) (items : list Item) (lights : list Light) :
  let s' := fold_left Scene.AddLight lights
                      (fold_left Scene.AddItem items s) in
  Scene.viewerDist s' = Scene.viewerDist s
  /\ Scene.screenDist s' = Scene.screenDist s
  /\ Scene.lights s' = Scene.lights s ++ lights
  /\ CompositeItem.children (Scene.composite s')
     = match items with
       | [] => CompositeItem.children (Scene.composite s)
       | _ :: _ =>
           Some (match CompositeItem.children (Scene.composite s) with
                 | None => []
                 | Some l => l
                 end ++ items)
       end.
Proof.
  assert (HL : forall (ls : list Light) (s0 : Scene),
             Scene.viewerDist (fold_left Scene.AddLight ls s0)
             = Scene.viewerDist s0
             /\ Scene.screenDist (fold_left Scene.AddLight ls s0)
                = Scene.screenDist s0
             /\ Scene.lights (fold_left Scene.AddLight ls s0)
                = Scene.lights s0 ++ ls
             /\ Scene.composite (fold_left Scene.AddLight ls s0)
                = Scene.composite s0).
  { induction ls as [| l ls IH]; intros s0.
    - cbn. rewrite app_nil_r. tauto.
    - cbn [fold_left].
      destruct (IH (Scene.AddLight s0 l)) as (H1 & H2 & H3 & H4).
      rewrite H1, H2, H3, H4. cbn. rewrite <- app_assoc. tauto. }
  assert (HI : forall (its : list Item) (s0 : Scene),
             Scene.viewerDist (fold_left Scene.AddItem its s0)
             = Scene.viewerDist s0
             /\ Scene.screenDist (fold_left Scene.AddItem its s0)
                = Scene.screenDist s0
             /\ Scene.lights (fold_left Scene.AddItem its s0)
                = Scene.lights s0
             /\ Scene.composite (fold_left Scene.AddItem its s0)
                = fold_left CompositeItem.AddItem its (Scene.composite s0)).
  { induction its as [| i its IH]; intros s0.
    - cbn. tauto.
    - cbn [fold_left].
      destruct (IH (Scene.AddItem s0 i)) as (H1 & H2 & H3 & H4).
      rewrite H1, H2, H3, H4. cbn. tauto. }
  cbn zeta.
  destruct (HL lights (fold_left Scene.AddItem items s))
    as (H1 & H2 & H3 & H4).
  destruct (HI items s) as (G1 & G2 & G3 & G4).
  rewrite H1, H2, H3, H4, G1, G2, G3, G4, AddItem_fold.
  split; [reflexivity |]. split; [reflexivity |]. split; [reflexivity |].
  destruct items; reflexivity.
Qed.

(** ** Depths and screen coordinates of the earlier revisions *)

(** X21: [ZFront] of a triangle is the least of the [Z] of its vertices, and
    [ZFront] of a kite the least of the [Z] of the vertices of its two
    triangles. *)
Theorem ZFront_least (k3 : Kite3) :
  let vertices (t3 : T3) := [T3.A t3; T3.B t3; T3.C t3] in
  (forall t3 : T3,
      Forall (fun p => T3_ZFront t3 <= P3.Z p) (vertices t3)
      /\ In (T3_ZFront t3) (map P3.Z (vertices t3)))
  /\ Forall (fun p => Kite3_ZFront k3 <= P3.Z p)
            (vertices (Kite3.TA k3) ++ vertices (Kite3.TB k3))
  /\ In (Kite3_ZFront k3)
        (map P3.Z (vertices (Kite3.TA k3) ++ vertices (Kite3.TB k3))).
Proof.
  intros vertices.
  assert (HT : forall t3 : T3,
             Forall (fun p => T3_ZFront t3 <= P3.Z p) (vertices t3)
             /\ In (T3_ZFront t3) (map P3.Z (vertices t3))).
  { intros t3. unfold T3_ZFront, vertices. cbn [map In].
    destruct (Rltb (P3.Z (T3.B t3)) (P3.Z (T3.A t3))) eqn:E1;
      [apply Rltb_true_iff in E1 | apply Rltb_false_iff in E1];
      match goal with
      | |- context [Rltb ?x ?y] =>
          destruct (Rltb x y) eqn:E2;
          [apply Rltb_true_iff in E2 | apply Rltb_false_iff in E2]
      end;
      (split;
       [repeat (apply Forall_cons; [cbn beta; lra |]); apply Forall_nil
       | tauto]). }
  split; [exact HT |].
  destruct (HT (Kite3.TA k3)) as (HA & HAin).
  destruct (HT (Kite3.TB k3)) as (HB & HBin).
  unfold Kite3_ZFront.
  destruct (Rltb (T3_ZFront (Kite3.TB k3)) (T3_ZFront (Kite3.TA k3))) eqn:E;
    [apply Rltb_true_iff in E | apply Rltb_false_iff in E];
    (split;
     [apply Forall_app; split;
      [eapply Forall_impl; [| exact HA] | eapply Forall_impl; [| exact HB]];
      cbn beta; intros; lra
     | rewrite map_app; apply in_or_app; tauto]).
Qed.

(** X22: The screen coordinate that [main] gives the pixel [x] of [width],
    for every [0 <= x < width], is in [[-1, 1)], is [-1] for the first pixel,
    and grows strictly with [x]. *)
Theorem screenCoord_range (x width : Z) :
  (0 <= x < width)%Z ->
  -1 <= screenCoord x width < 1
  /\ screenCoord 0 width = -1
  /\ forall x' : Z,
       (x < x')%Z -> screenCoord x width < screenCoord x' width.
Proof.
  intros Hx. unfold screenCoord.
  assert (Hw : 0 < IZR width) by (apply IZR_lt; lia).
  assert (H0 : 0 <= IZR x) by (apply IZR_le; lia).
  assert (H2 : IZR x < IZR width) by (apply IZR_lt; lia).
  assert (Hmono : forall a b : R, a < b -> a / IZR width < b / IZR width).
  { intros a b Hab. unfold Rdiv. apply Rmult_lt_compat_r; [| exact Hab].
    apply Rinv_0_lt_compat. exact Hw. }
  assert (Hone : IZR width / IZR width = 1) by (field; lra).
  pose proof (Hmono _ _ H2) as M2.
  assert (Hz : 0 <= IZR x / IZR width).
  { unfold Rdiv. apply Rmult_le_pos; [exact H0 |].
    left. apply Rinv_0_lt_compat. exact Hw. }
  split; [lra |]. split.
  - unfold Rdiv. rewrite Rmult_0_l. lra.
  - intros x' Hx'.
    assert (H1 : IZR x < IZR x') by (apply IZR_lt; lia).
    pose proof (Hmono _ _ H1) as M1. lra.
Qed.

(** The last of 500 pixels, the only pixel of a width of 1, and two pixels
    in between. *)
Lemma screenCoord_range_witness :
  -1 <= screenCoord 499 500 < 1
  /\ -1 <= screenCoord 0 1 < 1
  /\ screenCoord 125 500 < screenCoord 250 500.
Proof.
  split; [| split].
  - apply (screenCoord_range 499 500). lia.
  - apply (screenCoord_range 0 1). lia.
  - destruct (screenCoord_range 125 500) as (_ & _ & H); [lia |].
    apply H. lia.
Defined.

(** ** Moving a triangle and the ray together *)

(** X23: The triangle test does not depend on where the world origin is: when
    the triangle and the origin of the ray are moved by the same vector [d],
    the test accepts the same rays with the same [u] and [v], and a hit is
    moved by [d]. *)
Theorem IntersectUV_translate (a b c d : P3) (r : R3) :
  T3.IntersectUV (T3.mk (P3.Add a d) (P3.Add b d) (P3.Add c d))
                 (R3.mk (P3.Add (R3.At r) d) (R3.Dir r))
  = let '(hit, u, v, p) := T3.IntersectUV (T3.mk a b c) r in
    (hit, u, v, if hit then P3.Add p d else p).
Proof.
  set (t1 := T3.mk a b c).
  set (t2 := T3.mk (P3.Add a d) (P3.Add b d) (P3.Add c d)).
  set (r2 := R3.mk (P3.Add (R3.At r) d) (R3.Dir r)).
  assert (Hd : T3.det t2 r2 = T3.det t1 r)
    by (subst t1 t2 r2; expand_P3; ring).
  assert (Hu : T3.u t2 r2 = T3.u t1 r).
  { unfold T3.u. rewrite Hd. apply scale_inv. subst t1 t2 r2.
    expand_P3. ring. }
  assert (Hv : T3.v t2 r2 = T3.v t1 r).
  { unfold T3.v. rewrite Hd. apply scale_inv. subst t1 t2 r2.
    expand_P3. ring. }
  assert (Ht : T3.tparam t2 r2 = T3.tparam t1 r).
  { unfold T3.tparam. rewrite Hd. apply scale_inv. subst t1 t2 r2.
    expand_P3. ring. }
  assert (Hacc : T3.accepts t2 r2 <-> T3.accepts t1 r).
  { unfold T3.accepts. rewrite Hd, Hu, Hv, Ht. tauto. }
  destruct (accepts_dec t1 r) as [Ha | Hn].
  - rewrite (IntersectUV_accept _ _ Ha).
    rewrite (IntersectUV_accept _ _ (proj2 Hacc Ha)), Hu, Hv.
    cbn iota beta. f_equal. subst t1 t2. apply P3_eq; expand_P3; ring.
  - rewrite (IntersectUV_reject _ _ Hn).
    rewrite IntersectUV_reject by (rewrite Hacc; exact Hn). reflexivity.
Qed.
